(** * localscan: a shallow embedding of the scanner core

    The development follows the Go sources:
    - [scanner/network.go]  address enumeration ([HostsInNetwork]);
    - [scanner/scanner.go]  the probe cascade ([detectHost]) and the scan
      orchestrator ([Scan]);
    - [scanner/history.go]  the history store ([SaveHistory], [LoadHistory])
      and the diff engine ([ComputeDiff]);
    - [main.go]             the diff/save tail of [main].

    Conventions.  A Go [byte] is a [Z] in [0, 256) with its wrap-around
    written out; a [net.IP] or [net.IPMask] is the list of its bytes, the
    [nil] slice being the empty list; a Go [map[string]bool] is a
    [gmap string bool] read with the zero value [false] for a missing key;
    an [[]int] whose nil-ness the code tests is an [option (list Z)]. *)

From Stdlib Require Import ZArith Lia String Ascii List Sorting.Sorted Permutation.
From stdpp Require Import base list strings gmap sorting.
From coqutil Require Import Z.bitblast.

Local Open Scope string_scope.
Local Open Scope list_scope.
Local Open Scope Z_scope.

(** ** Bytes *)

Definition is_byte (b : Z) : Prop := 0 <= b < 256.
Definition bytes (l : list Z) : Prop := Forall is_byte l.

(** A [net.IP] / [net.IPMask]: a byte slice. *)
Abbreviation netIP := (list Z).
Abbreviation IPMask := (list Z).

Definition IPv4len : nat := 4.
Definition IPv6len : nat := 16.

(** [v4InV6Prefix]: ten zero bytes, then 0xff 0xff. *)
Definition v4InV6Prefix : list Z := [0;0;0;0;0;0;0;0;0;0;255;255].

Definition isZeros (p : list Z) : bool := forallb (Z.eqb 0) p.
Definition allFF (p : list Z) : bool := forallb (Z.eqb 255) p.

Definition list_eqb (a b : list Z) : bool := bool_decide (a = b).

(** [net.IP.To4]: the 4-byte form of an IPv4 address, [nil] otherwise. *)
Definition IP_To4 (ip : netIP) : netIP :=
  if (length ip =? IPv4len)%nat then ip
  else if (length ip =? IPv6len)%nat
          && isZeros (take 10 ip)
          && (nth 10 ip 0 =? 255) && (nth 11 ip 0 =? 255)
       then drop 12 ip
       else [].

(** [net.IP.Mask]. *)
Definition IP_Mask (ip : netIP) (mask : IPMask) : netIP :=
  let mask := if (length mask =? IPv6len)%nat && (length ip =? IPv4len)%nat
                 && allFF (take 12 mask)
              then drop 12 mask else mask in
  let ip := if (length mask =? IPv4len)%nat && (length ip =? IPv6len)%nat
               && list_eqb (take 12 ip) v4InV6Prefix
            then drop 12 ip else ip in
  if (length ip =? length mask)%nat then zip_with Z.land ip mask else [].

(** The inner loops of [simpleMaskLength] on the first byte that is not
    0xff: count its leading one bits, shifting left in 8 bits. *)
Fixpoint leading_ones (fuel : nat) (v : Z) (n : Z) : Z * Z :=
  match fuel with
  | O => (v, n)
  | S f => if Z.land v 128 =? 0 then (v, n)
           else leading_ones f (Z.shiftl v 1 mod 256) (n + 1)
  end.

(** [simpleMaskLength]: the number of leading ones of a canonical mask,
    [-1] when the mask is not canonical. *)
Fixpoint simpleMaskLength_from (mask : list Z) (n : Z) : Z :=
  match mask with
  | [] => n
  | v :: rest =>
      if v =? 255 then simpleMaskLength_from rest (n + 8)
      else
        let '(v', n') := leading_ones 8 v n in
        if negb (v' =? 0) then -1
        else if forallb (Z.eqb 0) rest then n' else -1
  end.

Definition simpleMaskLength (mask : IPMask) : Z := simpleMaskLength_from mask 0.

(** [net.IPMask.Size]. *)
Definition IPMask_Size (m : IPMask) : Z * Z :=
  let ones := simpleMaskLength m in
  let bits := Z.of_nat (length m) * 8 in
  if ones =? -1 then (0, 0) else (ones, bits).

Record IPNet := { IPNet_IP : netIP; IPNet_Mask : IPMask }.

(** [networkNumberAndMask]; the pair [(nil, nil)] is [None]. *)
Definition networkNumberAndMask (n : IPNet) : option (netIP * IPMask) :=
  let ip4 := IP_To4 (IPNet_IP n) in
  let ip := if bool_decide (ip4 = []) then IPNet_IP n else ip4 in
  if bool_decide (ip4 = []) && negb (length ip =? IPv6len)%nat then None
  else
    let m := IPNet_Mask n in
    if (length m =? IPv4len)%nat then
      if negb (length ip =? IPv4len)%nat then None else Some (ip, m)
    else if (length m =? IPv6len)%nat then
      if (length ip =? IPv4len)%nat then Some (ip, drop 12 m) else Some (ip, m)
    else None.

(** [net.IPNet.Contains]. *)
Definition IPNet_Contains (n : IPNet) (ip : netIP) : bool :=
  let '(nn, m) := default ([], []) (networkNumberAndMask n) in
  let ip := if bool_decide (IP_To4 ip = []) then ip else IP_To4 ip in
  if negb (length ip =? length nn)%nat then false
  else bool_decide (zip_with Z.land nn m = zip_with Z.land ip m).

(** ** network.go *)

Definition cloneIP (ip : netIP) : netIP := ip.

(** [incIP]: add one to the big-endian byte string, carrying leftwards;
    the loop runs from the last byte, so it is written on the reversal. *)
Fixpoint incIP_rev (l : list Z) : list Z :=
  match l with
  | [] => []
  | b :: rest =>
      let b' := (b + 1) mod 256 in
      if 0 <? b' then b' :: rest else b' :: incIP_rev rest
  end.

Definition incIP (ip : netIP) : netIP := rev (incIP_rev (rev ip)).

(** The [for current := cloneIP(ip); network.Contains(current); incIP(current)]
    loop.  It need not end (a malformed [IPNet] contains the nil address,
    which [incIP] leaves unchanged), hence the fuel; [None] is "still
    running". *)
Fixpoint hosts_loop (fuel : nat) (network : IPNet) (current : netIP)
    (hosts : list netIP) : option (list netIP) :=
  match fuel with
  | O => None
  | S f =>
      if IPNet_Contains network current
      then hosts_loop f network (incIP current) (hosts ++ [cloneIP current])
      else Some hosts
  end.

Definition HostsInNetwork (fuel : nat) (network : IPNet) : option (list netIP) :=
  let ip := IP_Mask (IPNet_IP network) (IPNet_Mask network) in
  let '(ones, bits) := IPMask_Size (IPNet_Mask network) in
  if (ones =? 0) || (ones =? bits) then Some []
  else
    hosts ← hosts_loop fuel network (cloneIP ip) [];
    if (2 <? length hosts)%nat
    then Some (take (length hosts - 2) (drop 1 hosts))
    else Some [].

(** ** main.go: the sort key *)

(** [ipToUint32]: the numeric value of an IPv4 address, 0 when the
    address has no 4-byte form. *)
Definition ipToUint32 (ip : netIP) : Z :=
  match IP_To4 ip with
  | [a; b; c; d] =>
      Z.lor (Z.shiftl a 24) (Z.lor (Z.shiftl b 16) (Z.lor (Z.shiftl c 8) d))
  | _ => 0
  end.

(** The 4-byte address whose numeric value is [v]. *)
Definition ipv4 (v : Z) : netIP :=
  [v / 2 ^ 24 mod 256; v / 2 ^ 16 mod 256; v / 2 ^ 8 mod 256; v mod 256].

(** ** The text form of addresses (package net) *)

Section Localscan.

(** The colon-hexadecimal text form of a 16-byte address that is not an
    IPv4 address, and the parser of that form, belong to package [net];
    the scanner handles IPv4 only, so both are left abstract here. *)
Variable String6 : netIP -> string.
Variable parseIPv6 : string -> netIP.

Definition digit (n : Z) : ascii := ascii_of_N (48 + Z.to_N n).

(** The decimal text of a byte. *)
Definition ubtoa (b : Z) : string :=
  if b <? 10 then String (digit b) ""
  else if b <? 100 then String (digit (b / 10)) (String (digit (b mod 10)) "")
  else String (digit (b / 100))
         (String (digit (b / 10 mod 10)) (String (digit (b mod 10)) "")).

Definition hexdigit (n : Z) : ascii :=
  if n <? 10 then digit n else ascii_of_N (87 + Z.to_N n).

Fixpoint hexString (p : list Z) : string :=
  match p with
  | [] => ""
  | b :: rest => String (hexdigit (b / 16)) (String (hexdigit (b mod 16)) (hexString rest))
  end.

(** The dotted-quad text of four bytes. *)
Definition dotted (a b c d : Z) : string :=
  ubtoa a +:+ String "." (ubtoa b +:+ String "." (ubtoa c +:+ String "." (ubtoa d))).

(** [net.IP.String]: the map key of every address set of the scanner. *)
Definition IP_String (ip : netIP) : string :=
  if (length ip =? 0)%nat then "<nil>"
  else if negb (length ip =? IPv4len)%nat && negb (length ip =? IPv6len)%nat
  then "?" +:+ hexString ip
  else match IP_To4 ip with
       | [a; b; c; d] => dotted a b c d
       | _ => String6 ip
       end.

Definition is_digit (ch : ascii) : bool :=
  let n := N_of_ascii ch in (48 <=? n)%N && (n <=? 57)%N.

Definition digit_val (ch : ascii) : Z := Z.of_N (N_of_ascii ch) - 48.

(** [parseIPv4Fields]: four decimal fields separated by dots, each at most
    255 and without a leading zero.  [prev] is the previous character
    ([None] at the start), [fields] the fields read so far; a dot is
    refused at the start, at the end and after a dot. *)
Fixpoint parseIPv4Fields (s : string) (prev : option ascii) (val digLen : Z)
    (fields : list Z) : option (list Z) :=
  match s with
  | EmptyString =>
      if (length fields <? 3)%nat then None else Some (fields ++ [val])
  | String ch rest =>
      if is_digit ch then
        if (digLen =? 1) && (val =? 0) then None
        else
          let val' := val * 10 + digit_val ch in
          if 255 <? val' then None
          else parseIPv4Fields rest (Some ch) val' (digLen + 1) fields
      else if Ascii.eqb ch "." then
        if match prev with None => true | Some p => Ascii.eqb p "." end
           || match rest with EmptyString => true | _ => false end
        then None
        else if (length fields =? 3)%nat then None
        else parseIPv4Fields rest (Some ch) 0 0 (fields ++ [val])
      else None
  end.

(** [parseIPv4], answering the 16-byte form as [net.ParseIP] does. *)
Definition parseIPv4 (s : string) : netIP :=
  match parseIPv4Fields s None 0 0 [] with
  | Some fields => v4InV6Prefix ++ fields
  | None => []
  end.

(** [net.ParseIP]: the first ['.'] or [':'] decides the family. *)
Fixpoint ParseIP_scan (whole s : string) : netIP :=
  match s with
  | EmptyString => []
  | String ch rest =>
      if Ascii.eqb ch "." then parseIPv4 whole
      else if Ascii.eqb ch ":" then parseIPv6 whole
      else ParseIP_scan whole rest
  end.

Definition ParseIP (s : string) : netIP := ParseIP_scan s s.

(** ** scanner.go: results *)

(** An [[]int] slice: [None] is the nil slice. *)
Abbreviation ints := (option (list Z)).

Definition append_int (s : ints) (x : Z) : ints := Some (default [] s ++ [x]).

Record ScanResult := mkScanResult {
  IP : netIP;
  Hostname : string;
  MAC : string;
  Vendor : string;
  Method : string;        (* ICMP, TCP, UDP, ARP *)
  OpenPorts : ints;
  Status : string         (* "NEW", "GONE" or "" *)
}.

Definition zeroScanResult : ScanResult := mkScanResult [] "" "" "" "" None "".

Definition set_Status (r : ScanResult) (s : string) : ScanResult :=
  mkScanResult (IP r) (Hostname r) (MAC r) (Vendor r) (Method r) (OpenPorts r) s.

Definition tcpPorts : list Z :=
  [22; 23; 53; 80; 443; 445; 139; 548;
   3389; 5900;
   8080; 8443; 8008; 8009;
   5353;
   7000; 7100;
   9100;
   62078;
   1883; 8883;
   554;
   5000; 5001;
   9090; 3000].

Definition udpPorts : list Z := [5353; 1900; 137; 161; 53; 123].

(** ** scanner.go: the probe cascade *)

(** What a TCP dial answers: a connection, a refusal ([isConnRefused]),
    or any other error (time-out, unreachable, ...). *)
Inductive DialResult := Connected | Refused | DialFailed.

Inductive Payload := mDNSQuery | ssdpSearch | netbiosQuery | snmpGetRequest | zeroByte.

(** The network as one cascade observes it: the outcome of each primitive. *)
Record Net := mkNet {
  ping : string -> bool;                    (* [cmd.Run() == nil] *)
  dial_tcp : string -> Z -> DialResult;     (* [net.DialTimeout("tcp", ...)] *)
  dial_udp : string -> Z -> bool;           (* [net.DialTimeout("udp", ...)] succeeded *)
  udp_write : string -> Z -> Payload -> bool;  (* [conn.Write] succeeded *)
  udp_read : string -> Z -> Z * bool        (* [conn.Read]: [n], [err == nil] *)
}.

(** The probes a cascade performs, in order. *)
Inductive Event :=
| EvPing (ip : string)
| EvDialTCP (ip : string) (port : Z)
| EvDialUDP (ip : string) (port : Z)
| EvSendUDP (ip : string) (port : Z) (payload : Payload)
| EvRecvUDP (ip : string) (port : Z).

(** Probing code reads the network and logs what it did. *)
Definition Probe (A : Type) : Type := Net -> list Event -> A * list Event.

Definition probe_ret {A} (x : A) : Probe A := fun _ tr => (x, tr).

Definition probe_bind {A B} (m : Probe A) (k : A -> Probe B) : Probe B :=
  fun net tr => let '(x, tr') := m net tr in k x net tr'.

Definition perform {A} (ev : Event) (outcome : Net -> A) : Probe A :=
  fun net tr => (outcome net, tr ++ [ev]).

#[local] Instance Probe_ret : MRet Probe := @probe_ret.
#[local] Instance Probe_bind : MBind Probe := fun A B k m => probe_bind m k.

Definition icmpPing (ip : string) : Probe bool :=
  perform (EvPing ip) (fun net => ping net ip).

Fixpoint tcpProbe_loop (ip : string) (ports : list Z) (alive : bool)
    (openPorts : ints) : Probe (bool * ints) :=
  match ports with
  | [] => mret (alive, openPorts)
  | port :: rest =>
      r ← perform (EvDialTCP ip port) (fun net => dial_tcp net ip port);
      match r with
      | Connected => tcpProbe_loop ip rest true (append_int openPorts port)
      | Refused => tcpProbe_loop ip rest true openPorts
      | DialFailed => tcpProbe_loop ip rest alive openPorts
      end
  end.

Definition tcpProbe (ip : string) : Probe (bool * ints) :=
  tcpProbe_loop ip tcpPorts false None.

Definition udpPayload (port : Z) : Payload :=
  if port =? 5353 then mDNSQuery
  else if port =? 1900 then ssdpSearch
  else if port =? 137 then netbiosQuery
  else if port =? 161 then snmpGetRequest
  else zeroByte.

Definition udpCheck (ip : string) (port : Z) : Probe bool :=
  ok ← perform (EvDialUDP ip port) (fun net => dial_udp net ip port);
  if negb ok then mret false
  else
    let payload := udpPayload port in
    sent ← perform (EvSendUDP ip port payload)
                    (fun net => udp_write net ip port payload);
    if negb sent then mret false
    else
      '(n, ok) ← perform (EvRecvUDP ip port) (fun net => udp_read net ip port);
      mret (ok && (0 <? n)).

Fixpoint udpProbe_loop (ip : string) (ports : list Z) : Probe bool :=
  match ports with
  | [] => mret false
  | port :: rest =>
      hit ← udpCheck ip port;
      if hit : bool then mret true else udpProbe_loop ip rest
  end.

Definition udpProbe (ip : string) : Probe bool := udpProbe_loop ip udpPorts.

(** [detectHost]: the ping and the TCP sweep both run before the outcome
    of either is looked at. *)
Definition detectHost (ip : string) : Probe (string * ints) :=
  icmpAlive ← icmpPing ip;
  r ← tcpProbe ip;
  let '(tcpAlive, openPorts) := r : bool * ints in
  if icmpAlive : bool then mret ("ICMP", openPorts)
  else if tcpAlive then mret ("TCP", openPorts)
  else
    udpAlive ← udpProbe ip;
    if udpAlive : bool then mret ("UDP", openPorts)
    else mret ("", None).

(** ** scanner.go: the scan orchestrator *)

(** A [map[string]bool] read: the zero value for a missing key. *)
Definition map_get (m : gmap string bool) (k : string) : bool :=
  default false (m !! k).

(** The state the workers share under the mutex. *)
Record ScanState := mkScanState {
  foundSet : gmap string bool;
  results : list ScanResult
}.

(** One job: a worker probes [hosts[idx]] against the network as that job
    sees it, then runs the critical section.  (The progress events, which
    carry no state of the scan, are left out.) *)
Definition worker_job (hosts : list netIP) (net : nat -> Net)
    (st : ScanState) (idx : nat) : ScanState :=
  match hosts !! idx with
  | None => st
  | Some ip =>
      let ipStr := IP_String ip in
      let '(method, openPorts) := fst (detectHost ipStr (net idx) []) in
      if negb (String.eqb method "") && negb (map_get (foundSet st) ipStr)
      then mkScanState (<[ipStr := true]> (foundSet st))
             (results st ++ [mkScanResult (cloneIP ip) "" "" "" method openPorts ""])
      else st
  end.

(** Phase 1.  The critical sections are atomic, so a run of the pool is
    the sequence [order] in which the jobs reach theirs: some arrangement
    of the indices of [hosts], empty when no worker runs. *)
Definition Scan_probe (hosts : list netIP) (workers : Z) (net : nat -> Net)
    (order : list nat) : ScanState :=
  fold_left (worker_job hosts net)
    (if workers <=? 0 then [] else order) (mkScanState ∅ []).

(** Phase 2: the ARP table, read after the pool has joined. *)
Definition arp_step (found : gmap string bool) (arpTable : gmap string string)
    (results : list ScanResult) (ip : netIP) : list ScanResult :=
  let ipStr := IP_String ip in
  if map_get found ipStr then results
  else match arpTable !! ipStr with
       | Some mac =>
           if negb (String.eqb mac "")
           then results ++ [mkScanResult (cloneIP ip) "" "" "" "ARP" None ""]
           else results
       | None => results
       end.

Definition Scan_arp (hosts : list netIP) (arpTable : gmap string string)
    (st : ScanState) : list ScanResult :=
  fold_left (arp_step (foundSet st) arpTable) hosts (results st).

Definition Scan (hosts : list netIP) (workers : Z) (net : nat -> Net)
    (order : list nat) (arpTable : gmap string string) : list ScanResult :=
  Scan_arp hosts arpTable (Scan_probe hosts workers net order).

(** ** history.go: the history store *)

Record historyEntry := mkHistoryEntry {
  he_IP : string;
  he_Hostname : string;
  he_MAC : string;
  he_Vendor : string;
  he_Method : string;
  he_OpenPorts : ints
}.

(** A JSON document as a value tree; the text layer of [encoding/json]
    (indentation, escapes, number syntax) is not modelled. *)
#[local] Unset Elimination Schemes.
Inductive json :=
| JNull
| JNum (n : Z)
| JStr (s : string)
| JArr (items : list json)
| JObj (fields : list (string * json)).
#[local] Set Elimination Schemes.

Definition marshal_ints (p : ints) : json :=
  match p with
  | None => JNull
  | Some l => JArr (JNum <$> l)
  end.

(** [json.Marshal] of a [historyEntry], by its field tags. *)
Definition marshal_entry (e : historyEntry) : json :=
  JObj [("ip", JStr (he_IP e));
        ("hostname", JStr (he_Hostname e));
        ("mac", JStr (he_MAC e));
        ("vendor", JStr (he_Vendor e));
        ("method", JStr (he_Method e));
        ("open_ports", marshal_ints (he_OpenPorts e))].

(** [json.Marshal] of a non-nil [[]historyEntry]. *)
Definition marshal_entries (entries : list historyEntry) : json :=
  JArr (marshal_entry <$> entries).

Definition unmarshal_string (j : json) (old : string) : option string :=
  match j with
  | JNull => Some old
  | JStr s => Some s
  | _ => None
  end.

Definition unmarshal_int (j : json) : option Z :=
  match j with
  | JNull => Some 0
  | JNum n => Some n
  | _ => None
  end.

Definition unmarshal_ints (j : json) : option ints :=
  match j with
  | JNull => Some None
  | JArr items => Some <$> mapM unmarshal_int items
  | _ => None
  end.

Definition lower (ch : ascii) : ascii :=
  let n := N_of_ascii ch in
  if (65 <=? n)%N && (n <=? 90)%N then ascii_of_N (n + 32) else ch.

Fixpoint lower_string (s : string) : string :=
  match s with
  | EmptyString => EmptyString
  | String ch rest => String (lower ch) (lower_string rest)
  end.

(** A key names a field when it equals the tag up to ASCII case. *)
Definition key_is (k tag : string) : bool := String.eqb (lower_string k) tag.

Definition unmarshal_field (e : historyEntry) (kv : string * json)
    : option historyEntry :=
  let '(k, v) := kv in
  if key_is k "ip" then
    s ← unmarshal_string v (he_IP e);
    Some (mkHistoryEntry s (he_Hostname e) (he_MAC e) (he_Vendor e) (he_Method e) (he_OpenPorts e))
  else if key_is k "hostname" then
    s ← unmarshal_string v (he_Hostname e);
    Some (mkHistoryEntry (he_IP e) s (he_MAC e) (he_Vendor e) (he_Method e) (he_OpenPorts e))
  else if key_is k "mac" then
    s ← unmarshal_string v (he_MAC e);
    Some (mkHistoryEntry (he_IP e) (he_Hostname e) s (he_Vendor e) (he_Method e) (he_OpenPorts e))
  else if key_is k "vendor" then
    s ← unmarshal_string v (he_Vendor e);
    Some (mkHistoryEntry (he_IP e) (he_Hostname e) (he_MAC e) s (he_Method e) (he_OpenPorts e))
  else if key_is k "method" then
    s ← unmarshal_string v (he_Method e);
    Some (mkHistoryEntry (he_IP e) (he_Hostname e) (he_MAC e) (he_Vendor e) s (he_OpenPorts e))
  else if key_is k "open_ports" then
    p ← unmarshal_ints v;
    Some (mkHistoryEntry (he_IP e) (he_Hostname e) (he_MAC e) (he_Vendor e) (he_Method e) p)
  else Some e.

Definition zeroHistoryEntry : historyEntry := mkHistoryEntry "" "" "" "" "" None.

Fixpoint unmarshal_fields (fields : list (string * json)) (e : historyEntry)
    : option historyEntry :=
  match fields with
  | [] => Some e
  | kv :: rest => e' ← unmarshal_field e kv; unmarshal_fields rest e'
  end.

Definition unmarshal_entry (j : json) : option historyEntry :=
  match j with
  | JNull => Some zeroHistoryEntry
  | JObj fields => unmarshal_fields fields zeroHistoryEntry
  | _ => None
  end.

(** [json.Unmarshal] into a [[]historyEntry]; [None] is an error. *)
Definition unmarshal_entries (j : json) : option (list historyEntry) :=
  match j with
  | JNull => Some []
  | JArr items => mapM unmarshal_entry items
  | _ => None
  end.

(** The file [~/.localscan/last.json]: absent, bytes that are no JSON
    document, or a document; and whether the directory and the file can
    be written. *)
Inductive file := NotJSON | Doc (j : json).

Record FS := mkFS {
  last_json : option file;
  writable : bool
}.

Inductive error := ErrWrite | ErrRead | ErrSyntax.

Definition toHistoryEntry (r : ScanResult) : historyEntry :=
  let ports := match OpenPorts r with None => Some [] | p => p end in
  mkHistoryEntry (IP_String (IP r)) (Hostname r) (MAC r) (Vendor r) (Method r) ports.

(** [SaveHistory]: the new file system and the error, if any. *)
Definition SaveHistory (results : list ScanResult) (fs : FS) : FS * option error :=
  if negb (writable fs) then (fs, Some ErrWrite)
  else
    let entries := toHistoryEntry <$> results in
    (mkFS (Some (Doc (marshal_entries entries))) (writable fs), None).

Definition fromHistoryEntry (e : historyEntry) : ScanResult :=
  mkScanResult (ParseIP (he_IP e)) (he_Hostname e) (he_MAC e) (he_Vendor e)
    (he_Method e) (he_OpenPorts e) "".

(** [LoadHistory]: the results, or the error. *)
Definition LoadHistory (fs : FS) : list ScanResult + error :=
  match last_json fs with
  | None => inr ErrRead
  | Some NotJSON => inr ErrSyntax
  | Some (Doc j) =>
      match unmarshal_entries j with
      | None => inr ErrSyntax
      | Some entries => inl (fromHistoryEntry <$> entries)
      end
  end.

(** ** history.go: the diff engine *)

Definition key_set (rs : list ScanResult) : gmap string bool :=
  fold_left (fun m r => <[IP_String (IP r) := true]> m) rs ∅.

(** The second loop, on the entries of [current] in place. *)
Definition mark_new (prevSet : gmap string bool) (r : ScanResult) : ScanResult :=
  if negb (map_get prevSet (IP_String (IP r))) then set_Status r "NEW" else r.

(** The third loop: one GONE copy per entry of [previous] not in [current]. *)
Definition gone_entries (curSet : gmap string bool) (previous : list ScanResult)
    : list ScanResult :=
  fold_left (fun acc r =>
               if negb (map_get curSet (IP_String (IP r)))
               then acc ++ [set_Status r "GONE"] else acc)
            previous [].

(** [ComputeDiff] on the values of its two arguments: what it returns when
    [current] and [previous] are distinct arrays (see [ComputeDiffM] for
    the memory it writes). *)
Definition ComputeDiff (current previous : list ScanResult) : list ScanResult :=
  let prevSet := key_set previous in
  let curSet := key_set current in
  (mark_new prevSet <$> current) ++ gone_entries curSet previous.


(** ** [ComputeDiff] in memory

    A [[]ScanResult] is a slice header over a backing array; the heap is
    the list of the backing arrays, a location being an index in it.
    [current[i].Status = "NEW"] writes the array of [current] in place, and
    [append] writes it too while the capacity lasts. *)

Record slice := mkSlice {
  ptr : nat;     (* the backing array *)
  off : nat;     (* index of element 0 in it *)
  len : nat;
  cap : nat      (* counted from [off] *)
}.

Abbreviation heap := (list (list ScanResult)).

(** The capacity the runtime picks when [append] must grow a slice, from
    the length needed and the old capacity; the language only promises
    that it suffices. *)
Variable growcap : nat -> nat -> nat.

Definition array_of (h : heap) (s : slice) : list ScanResult :=
  default [] (h !! ptr s).

Definition contents (h : heap) (s : slice) : list ScanResult :=
  take (len s) (drop (off s) (array_of h s)).

Definition load (h : heap) (s : slice) (i : nat) : ScanResult :=
  default zeroScanResult (array_of h s !! (off s + i)%nat).

Definition store (h : heap) (s : slice) (i : nat) (x : ScanResult) : heap :=
  alter (fun arr => <[(off s + i)%nat := x]> arr) (ptr s) h.

(** [append(s, x)]. *)
Definition append (h : heap) (s : slice) (x : ScanResult) : heap * slice :=
  if (len s <? cap s)%nat
  then (store h s (len s) x, mkSlice (ptr s) (off s) (S (len s)) (cap s))
  else
    let newcap := Nat.max (S (len s)) (growcap (S (len s)) (cap s)) in
    (h ++ [contents h s ++ x :: replicate (newcap - S (len s)) zeroScanResult],
     mkSlice (length h) 0 (S (len s)) newcap).

Definition diff_mark (prevSet : gmap string bool) (current : slice)
    (st : heap * gmap string bool) (i : nat) : heap * gmap string bool :=
  let '(h, curSet) := st in
  let ip := IP_String (IP (load h current i)) in
  let curSet := <[ip := true]> curSet in
  if negb (map_get prevSet ip)
  then (store h current i (set_Status (load h current i) "NEW"), curSet)
  else (h, curSet).

Definition diff_gone (curSet : gmap string bool) (previous : slice)
    (st : heap * slice) (j : nat) : heap * slice :=
  let '(h, current) := st in
  let r := load h previous j in
  if negb (map_get curSet (IP_String (IP r)))
  then append h current (set_Status r "GONE")
  else (h, current).

(** [ComputeDiff], statement by statement: the heap after the call and the
    slice returned. *)
Definition ComputeDiffM (h : heap) (current previous : slice) : heap * slice :=
  let prevSet := key_set (contents h previous) in
  let '(h1, curSet) :=
    fold_left (diff_mark prevSet current) (seq 0 (len current)) (h, ∅) in
  fold_left (diff_gone curSet previous) (seq 0 (len previous)) (h1, current).

(** A slice lies within its backing array. *)
Definition valid (h : heap) (s : slice) : Prop :=
  (len s <= cap s)%nat /\ (off s + cap s <= length (array_of h s))%nat
  /\ (0 < cap s -> ptr s < length h)%nat.

(** ** main.go: from the scan to the renderers *)

(** [sort.Slice] (not stable: which arrangement it picks among equal keys
    is its own business), reverse resolution and the vendor table are
    collaborators of [main]. *)
Variable sort_Slice :
  (ScanResult -> ScanResult -> bool) -> list ScanResult -> list ScanResult.
Variable ResolveHostname : string -> string.
Variable LookupVendor : string -> string.

Definition enrich (arpTable : gmap string string) (r : ScanResult) : ScanResult :=
  let ipStr := IP_String (IP r) in
  match arpTable !! ipStr with
  | Some mac =>
      mkScanResult (IP r) (ResolveHostname ipStr) mac (LookupVendor mac)
        (Method r) (OpenPorts r) (Status r)
  | None =>
      mkScanResult (IP r) (ResolveHostname ipStr) "-" "-"
        (Method r) (OpenPorts r) (Status r)
  end.

Definition by_address (x y : ScanResult) : bool :=
  ipToUint32 (IP x) <? ipToUint32 (IP y).

Definition not_gone (r : ScanResult) : Prop := Status r <> "GONE".

#[global] Instance not_gone_dec (r : ScanResult) : Decision (not_gone r).
Proof. unfold not_gone. apply _. Defined.

(** [main] after [Scan] has returned [results]: what is handed to the
    renderer, and the file system left behind.  [LoadHistory] answers a
    fresh slice, so [ComputeDiff] is given two distinct arrays. *)
Definition main_tail (diff : bool) (results : list ScanResult)
    (arpTable : gmap string string) (fs : FS) : list ScanResult * FS :=
  let results := enrich arpTable <$> results in
  let results := sort_Slice by_address results in
  if diff then
    let previous := match LoadHistory fs with inl p => p | inr _ => [] end in
    let results := ComputeDiff results previous in
    let results := sort_Slice by_address results in
    let toSave := filter not_gone results in
    (results, fst (SaveHistory toSave fs))
  else (results, fs).


(** ** What the probes of one cascade answer, read off the network *)

Definition tcp_alive (net : Net) (ip : string) : bool :=
  existsb (fun port => match dial_tcp net ip port with
                       | DialFailed => false
                       | _ => true
                       end) tcpPorts.

Definition connected (net : Net) (ip : string) (port : Z) : bool :=
  match dial_tcp net ip port with
  | Connected => true
  | _ => false
  end.

Definition ports_of (l : list Z) : ints :=
  match l with
  | [] => None
  | _ => Some l
  end.

Definition open_ports (net : Net) (ip : string) : ints :=
  ports_of (List.filter (connected net ip) tcpPorts).

(** The ports of an [[]int], nil or not. *)
Definition port_list (p : ints) : list Z := default [] p.

(** ** Sample networks *)


(** The ping answers and nothing else does. *)
Definition ping_only : Net :=
  mkNet (fun _ => true) (fun _ _ => DialFailed) (fun _ _ => false)
        (fun _ _ _ => false) (fun _ _ => (0, false)).

(** The ping answers and the two SMB ports accept. *)
Definition smb_host : Net :=
  mkNet (fun _ => true)
        (fun _ port => if (port =? 445) || (port =? 139) then Connected
                       else DialFailed)
        (fun _ _ => false) (fun _ _ _ => false) (fun _ _ => (0, false)).


(** ** The diff, in the words of the specification *)

(** The canonical key of an entry. *)
Definition address (r : ScanResult) : string := IP_String (IP r).

Definition absent_from (rs : list ScanResult) (r : ScanResult) : Prop :=
  address r ∉ address <$> rs.

#[global] Instance absent_from_dec rs r : Decision (absent_from rs r).
Proof. unfold absent_from. apply _. Defined.

(** "For each current entry whose address is absent from previous, set
    status=NEW.  For each previous entry whose address is absent from
    current, append a synthetic entry carrying the previous entry's
    last-known data with status=GONE.  Entries present in both keep
    status unset." *)
Definition classify (current previous : list ScanResult) : list ScanResult :=
  ((fun r => if decide (absent_from previous r) then set_Status r "NEW" else r)
     <$> current)
  ++ ((fun r => set_Status r "GONE") <$> filter (absent_from current) previous).

(** Sample entries: hosts A, B and C. *)
Definition host_A : ScanResult :=
  mkScanResult [10; 0; 0; 1] "alpha" "aa:aa" "Acme" "TCP" (Some [22]) "".
Definition host_B : ScanResult :=
  mkScanResult [10; 0; 0; 2] "beta" "bb:bb" "Bolt" "ICMP" None "".
Definition host_C : ScanResult :=
  mkScanResult [10; 0; 0; 3] "gamma" "cc:cc" "Core" "UDP" None "".


(** ** What the scan leaves in an entry *)

(** Open ports in the order the sweep dials them. *)
Definition probe_order (r : ScanResult) : Prop :=
  port_list (OpenPorts r) `sublist_of` tcpPorts.

Definition scanned (r : ScanResult) : Prop :=
  Status r = "" /\ probe_order r.

(** The invariant of the critical section: one entry per address, each
    of them recorded in [foundSet]. *)
Definition deduplicated (st : ScanState) : Prop :=
  NoDup (address <$> results st)
  /\ forall r, r ∈ results st -> map_get (foundSet st) (address r) = true.


(** ** What a reload of a saved entry holds *)






(** [current] and [previous] do not share memory [ComputeDiff] may write:
    they lie in distinct backing arrays, or one of them has no capacity. *)
Definition separate (current previous : slice) : Prop :=
  cap current = 0%nat \/ cap previous = 0%nat \/ ptr current <> ptr previous.

(** ** Stand-ins for the collaborators, for the closed examples

    The examples hold IPv4 addresses only, so the IPv6 text functions are
    never consulted; the growth policy doubles; the sort is a merge sort. *)

Definition sample_String6 : netIP -> string := fun _ => "::".
Definition sample_parseIPv6 : string -> netIP := fun _ => [].
Definition sample_growcap : nat -> nat -> nat := fun needed _ => (2 * needed)%nat.
Definition sample_sort (less : ScanResult -> ScanResult -> bool)
    (l : list ScanResult) : list ScanResult :=
  merge_sort (fun x y => Is_true (negb (less y x))) l.
Definition sample_names : string -> string := fun _ => "".

(** An empty, writable home directory. *)
Definition fresh_fs : FS := mkFS None true.

(** One array holding A and B; [current] is its first element, with room
    for one more, and [previous] the whole of it. *)
Definition shared_heap : heap := [[host_A; host_B]].
Definition shared_current : slice := mkSlice 0 0 1 2.
Definition shared_previous : slice := mkSlice 0 0 2 2.

(** Two arrays: [current] = {B, C} and [previous] = {A, B}. *)
Definition two_heap : heap := [[host_B; host_C]; [host_A; host_B]].
Definition two_current : slice := mkSlice 0 0 2 2.
Definition two_previous : slice := mkSlice 1 0 2 2.

(** A history file holding A and B. *)
Definition history_AB : FS :=
  mkFS (Some (Doc (JArr
    [JObj [("ip", JStr "10.0.0.1"); ("hostname", JStr "alpha");
           ("mac", JStr "aa:aa"); ("vendor", JStr "Acme");
           ("method", JStr "TCP"); ("open_ports", JArr [JNum 22])];
     JObj [("ip", JStr "10.0.0.2"); ("hostname", JStr "beta");
           ("mac", JStr "bb:bb"); ("vendor", JStr "Bolt");
           ("method", JStr "ICMP"); ("open_ports", JArr [])]])))
       true.

(** One array holding C alone, for [current], and a nil [previous]. *)
Definition lone_heap : heap := [[host_C]].
Definition lone_current : slice := mkSlice 0 0 1 1.
Definition nil_slice : slice := mkSlice 0 0 0 0.

(** A byte is all ones, or has a zero bit below its leading ones, or is
    [k] ones followed by zeros; checked on the 256 bytes. *)
Definition byte_prefix_ok (v : Z) : bool :=
  (v =? 255)
  || negb (fst (leading_ones 8 v 0) =? 0)
  || let k := snd (leading_ones 8 v 0) in
     (0 <=? k) && (k <? 8) && (v =? 256 - 2 ^ (8 - k)).

(** The network 192.168.1.4/30, its address in the 16-byte form. *)
Definition net_192_168_1_4_30 : IPNet :=
  {| IPNet_IP := [0;0;0;0;0;0;0;0;0;0;255;255;192;168;1;5];
     IPNet_Mask := [255;255;255;252] |}.

(** ** network.go: interface detection *)

(** The bits of [net.Flags] the code tests. *)
Definition FlagUp : Z := 1.
Definition FlagLoopback : Z := 4.

(** A [net.Addr] of an interface: an [*net.IPNet], or a value of another
    dynamic type (the type assertion fails). *)
Inductive Addr := AddrIPNet (ipNet : IPNet) | AddrOther.

(** A [net.Interface] with what [iface.Addrs()] answers, [None] being an
    error. *)
Record Interface := mkInterface {
  if_Name : string;
  if_Flags : Z;
  if_Addrs : option (list Addr)
}.

(** [InterfaceInfo]; the fields [Name], [IP] and [Network]. *)
Record InterfaceInfo := mkInterfaceInfo {
  info_Name : string;
  info_IP : netIP;
  info_Network : IPNet
}.

(** The inner loop of [DetectInterface], over the addresses of one
    interface. *)
Fixpoint first_IPv4 (name : string) (addrs : list Addr) : option InterfaceInfo :=
  match addrs with
  | [] => None
  | AddrOther :: rest => first_IPv4 name rest
  | AddrIPNet ipNet :: rest =>
      let ip4 := IP_To4 (IPNet_IP ipNet) in
      if bool_decide (ip4 = []) then first_IPv4 name rest
      else Some (mkInterfaceInfo name ip4 ipNet)
  end.

(** The outer loop, over the interfaces. *)
Fixpoint DetectInterface_loop (ifaceName : string) (ifaces : list Interface)
    : option InterfaceInfo :=
  match ifaces with
  | [] => None
  | iface :: rest =>
      if negb (Z.land (if_Flags iface) FlagLoopback =? 0)
      then DetectInterface_loop ifaceName rest
      else if Z.land (if_Flags iface) FlagUp =? 0
      then DetectInterface_loop ifaceName rest
      else if negb (String.eqb ifaceName "")
              && negb (String.eqb (if_Name iface) ifaceName)
      then DetectInterface_loop ifaceName rest
      else
        match if_Addrs iface with
        | None => DetectInterface_loop ifaceName rest
        | Some addrs =>
            match first_IPv4 (if_Name iface) addrs with
            | Some info => Some info
            | None => DetectInterface_loop ifaceName rest
            end
        end
  end.

Inductive DetectError :=
| ErrListInterfaces                  (* "list interfaces: ..." *)
| ErrNotFound (ifaceName : string)   (* "interface %q not found or has no IPv4 address" *)
| ErrNoInterface.                    (* "no active network interface found" *)

(** [DetectInterface], given what [net.Interfaces()] answers ([None]: an
    error). *)
Definition DetectInterface (ifaceName : string) (ifaces : option (list Interface))
    : InterfaceInfo + DetectError :=
  match ifaces with
  | None => inr ErrListInterfaces
  | Some ifaces =>
      match DetectInterface_loop ifaceName ifaces with
      | Some info => inl info
      | None =>
          if negb (String.eqb ifaceName "") then inr (ErrNotFound ifaceName)
          else inr ErrNoInterface
      end
  end.

(** An interface [DetectInterface] may pick: not a loopback, up, of the
    name asked for if any, and with an address that has a 4-byte form. *)
Definition eligible (ifaceName : string) (iface : Interface) : Prop :=
  Z.land (if_Flags iface) FlagLoopback = 0
  /\ Z.land (if_Flags iface) FlagUp <> 0
  /\ (ifaceName = "" \/ if_Name iface = ifaceName).

Definition IPv4_addr (a : Addr) : Prop :=
  match a with
  | AddrIPNet ipNet => IP_To4 (IPNet_IP ipNet) <> []
  | AddrOther => False
  end.

Definition usable (ifaceName : string) (iface : Interface) : Prop :=
  eligible ifaceName iface
  /\ exists addrs, if_Addrs iface = Some addrs /\ Exists IPv4_addr addrs.

(** A host with a loopback, a wired interface that is down, and a
    wireless interface on 192.168.1.5/30. *)
Definition sample_ifaces : list Interface :=
  [mkInterface "lo" 5 (Some [AddrIPNet {| IPNet_IP := [127; 0; 0; 1];
                                          IPNet_Mask := [255; 0; 0; 0] |}]);
   mkInterface "eth0" 2 (Some []);
   mkInterface "wlan0" 19 (Some [AddrOther; AddrIPNet net_192_168_1_4_30])].

(** ** scanner.go: the ping command *)

(** [max]. *)
Definition max (a b : Z) : Z := if a >? b then a else b.

(** [time.Duration.Milliseconds]: a duration is a number of nanoseconds. *)
Definition Milliseconds (d : Z) : Z := d ÷ 1000000.

(** An argument of the command: a literal, or [fmt.Sprintf("%d", n)]. *)
Inductive Arg := Lit (s : string) | Int (n : Z).

(** The arguments [icmpPing] gives to [ping], for the value of
    [runtime.GOOS]. *)
Definition ping_args (goos : string) (ip : string) (timeout : Z) : list Arg :=
  let timeoutSec := Milliseconds timeout in
  let timeoutSec := if timeoutSec <? 1 then 1 else timeoutSec in
  if String.eqb goos "windows"
  then [Lit "-n"; Lit "1"; Lit "-w"; Int timeoutSec; Lit ip]
  else if String.eqb goos "darwin"
  then [Lit "-c"; Lit "1"; Lit "-W"; Int timeoutSec; Lit ip]
  else [Lit "-c"; Lit "1"; Lit "-W"; Int (max 1 (timeoutSec ÷ 1000)); Lit ip].

(** ** What the UDP probes of one cascade answer, read off the network *)

(** The exchange on one port got an answer: the dial and the write
    succeeded and the read returned at least one byte without error. *)
Definition udp_replies (net : Net) (ip : string) (port : Z) : bool :=
  dial_udp net ip port
  && udp_write net ip port (udpPayload port)
  && (udp_read net ip port).2 && (0 <? (udp_read net ip port).1).

(** What one exchange does on the network. *)
Definition udp_events (net : Net) (ip : string) (port : Z) : list Event :=
  EvDialUDP ip port ::
  (if dial_udp net ip port
   then EvSendUDP ip port (udpPayload port) ::
        (if udp_write net ip port (udpPayload port)
         then [EvRecvUDP ip port] else [])
   else []).

(** The ports of a list up to and including the first that answers. *)
Fixpoint until_reply (net : Net) (ip : string) (ports : list Z) : list Z :=
  match ports with
  | [] => []
  | port :: rest =>
      port :: (if udp_replies net ip port then [] else until_reply net ip rest)
  end.

Definition udp_alive (net : Net) (ip : string) : bool :=
  existsb (udp_replies net ip) udpPorts.

(** ** What the scan reports, read off the networks of the jobs *)

(** What the cascade of job [idx] answers. *)
Definition job_outcome (hosts : list netIP) (net : nat -> Net) (idx : nat)
    : option (netIP * (string * ints)) :=
  ip ← hosts !! idx;
  Some (ip, (detectHost (IP_String ip) (net idx) []).1).

(** Job [idx] probes the address [k] and some probe of it answers. *)
Definition responds (hosts : list netIP) (net : nat -> Net) (idx : nat)
    (k : string) : Prop :=
  exists ip m, job_outcome hosts net idx = Some (ip, m)
               /\ IP_String ip = k /\ m.1 <> "".

(** The ARP table holds a hardware address for [k]. *)
Definition in_arp (arpTable : gmap string string) (k : string) : Prop :=
  exists mac, arpTable !! k = Some mac /\ mac <> "".

#[global] Instance in_arp_dec arpTable k : Decision (in_arp arpTable k).
Proof.
  unfold in_arp. destruct (arpTable !! k) as [mac |].
  - destruct (decide (mac = "")) as [E | E].
    + right. intros (m & [= <-] & H). contradiction.
    + left. exists mac. split; [reflexivity | exact E].
  - right. intros (m & H & _). discriminate.
Defined.

(** The entry the ARP phase appends for a host. *)
Definition arp_entry (ip : netIP) : ScanResult :=
  mkScanResult ip "" "" "" "ARP" None "".

(** A host that refuses every connection and answers nothing else. *)
Definition refusing : Net :=
  mkNet (fun _ => false) (fun _ _ => Refused) (fun _ _ => false)
        (fun _ _ _ => false) (fun _ _ => (0, false)).

(** A host that answers the NetBIOS query only. *)
Definition netbios_host : Net :=
  mkNet (fun _ => false) (fun _ _ => DialFailed) (fun _ _ => true)
        (fun _ _ _ => true)
        (fun _ port => if port =? 137 then (57, true) else (0, false)).

(** * Properties *)

(** ** Big-endian arithmetic on four bytes *)

Lemma bytes_quad (a b c d : Z) :
  bytes [a; b; c; d] <-> is_byte a /\ is_byte b /\ is_byte c /\ is_byte d.
Proof.
  unfold bytes. rewrite !Forall_cons. intuition.
Qed.

Lemma lor_shiftl_low (a d k : Z) :
  0 <= k -> 0 <= d < 2 ^ k -> Z.lor (Z.shiftl a k) d = a * 2 ^ k + d.
Proof.
  intros Hk Hd. rewrite Z.shiftl_mul_pow2 by lia.
  symmetry. apply Z.add_nocarry_lor.
  apply Z.bits_inj'. intros n Hn.
  rewrite Z.land_spec, Z.bits_0.
  destruct (Z.ltb_spec n k) as [Hlt | Hge].
  - rewrite Z.mul_pow2_bits_low by lia. reflexivity.
  - destruct (Z.eq_dec d 0) as [-> | Hd0].
    + rewrite Z.bits_0. apply andb_false_r.
    + assert (Z.log2 d < k) by (apply Z.log2_lt_pow2; lia).
      rewrite (Z.bits_above_log2 d n) by lia. apply andb_false_r.
Qed.

Lemma ipToUint32_quad (a b c d : Z) :
  bytes [a; b; c; d] ->
  ipToUint32 [a; b; c; d] = a * 2 ^ 24 + b * 2 ^ 16 + c * 2 ^ 8 + d.
Proof.
  intros H. unfold bytes in H. rewrite !Forall_cons in H.
  destruct H as (Ha & Hb & Hc & Hd & _). unfold is_byte in *.
  unfold ipToUint32, IP_To4. simpl.
  rewrite (lor_shiftl_low c d 8) by lia.
  rewrite (lor_shiftl_low b _ 16) by lia.
  rewrite (lor_shiftl_low a _ 24) by lia.
  lia.
Qed.

Lemma ipToUint32_range (a b c d : Z) :
  bytes [a; b; c; d] -> 0 <= ipToUint32 [a; b; c; d] < 2 ^ 32.
Proof.
  intros H. rewrite ipToUint32_quad by assumption.
  unfold bytes in H. rewrite !Forall_cons in H.
  destruct H as (Ha & Hb & Hc & Hd & _). unfold is_byte in *. lia.
Qed.

Lemma ipv4_bytes (v : Z) : bytes (ipv4 v).
Proof.
  unfold bytes, ipv4, is_byte.
  repeat constructor; try apply Z.mod_pos_bound; lia.
Qed.

Lemma ipv4_length (v : Z) : length (ipv4 v) = 4%nat.
Proof. reflexivity. Qed.

Lemma ipToUint32_ipv4 (v : Z) : 0 <= v < 2 ^ 32 -> ipToUint32 (ipv4 v) = v.
Proof.
  intros Hv. unfold ipv4. rewrite ipToUint32_quad by apply (ipv4_bytes v).
  assert (v / 2 ^ 24 mod 256 = v / 2 ^ 24) as ->.
  { apply Z.mod_small. split; [apply Z.div_pos; lia |].
    apply Z.div_lt_upper_bound; lia. }
  pose proof (Z.div_mod v 256 ltac:(lia)).
  pose proof (Z.div_mod (v / 256) 256 ltac:(lia)).
  pose proof (Z.div_mod (v / 256 / 256) 256 ltac:(lia)).
  change (2 ^ 8) with 256.
  replace (v / 2 ^ 16) with (v / 256 / 256)
    by (rewrite Z.div_div by lia; reflexivity).
  replace (v / 2 ^ 24) with (v / 256 / 256 / 256)
    by (rewrite !Z.div_div by lia; reflexivity).
  lia.
Qed.

Lemma ipv4_ipToUint32 (a b c d : Z) :
  bytes [a; b; c; d] -> ipv4 (ipToUint32 [a; b; c; d]) = [a; b; c; d].
Proof.
  intros H. rewrite ipToUint32_quad by assumption.
  unfold bytes in H. rewrite !Forall_cons in H.
  destruct H as (Ha & Hb & Hc & Hd & _). unfold is_byte in *.
  unfold ipv4.
  assert (Hd' : (a * 2 ^ 24 + b * 2 ^ 16 + c * 2 ^ 8 + d) mod 256 = d).
  { replace (a * 2 ^ 24 + b * 2 ^ 16 + c * 2 ^ 8 + d)
      with (d + (a * 2 ^ 16 + b * 2 ^ 8 + c) * 256) by lia.
    rewrite Z.mod_add by lia. apply Z.mod_small; lia. }
  assert (Hc' : (a * 2 ^ 24 + b * 2 ^ 16 + c * 2 ^ 8 + d) / 2 ^ 8 mod 256 = c).
  { replace (a * 2 ^ 24 + b * 2 ^ 16 + c * 2 ^ 8 + d)
      with (d + (a * 2 ^ 16 + b * 2 ^ 8 + c) * 2 ^ 8) by lia.
    rewrite Z.div_add by lia. rewrite (Z.div_small d) by lia.
    replace (0 + (a * 2 ^ 16 + b * 2 ^ 8 + c))
      with (c + (a * 2 ^ 8 + b) * 256) by lia.
    rewrite Z.mod_add by lia. apply Z.mod_small; lia. }
  assert (Hb' : (a * 2 ^ 24 + b * 2 ^ 16 + c * 2 ^ 8 + d) / 2 ^ 16 mod 256 = b).
  { replace (a * 2 ^ 24 + b * 2 ^ 16 + c * 2 ^ 8 + d)
      with ((c * 2 ^ 8 + d) + (a * 2 ^ 8 + b) * 2 ^ 16) by lia.
    rewrite Z.div_add by lia. rewrite (Z.div_small (c * 2 ^ 8 + d)) by lia.
    replace (0 + (a * 2 ^ 8 + b)) with (b + a * 256) by lia.
    rewrite Z.mod_add by lia. apply Z.mod_small; lia. }
  assert (Ha' : (a * 2 ^ 24 + b * 2 ^ 16 + c * 2 ^ 8 + d) / 2 ^ 24 mod 256 = a).
  { replace (a * 2 ^ 24 + b * 2 ^ 16 + c * 2 ^ 8 + d)
      with ((b * 2 ^ 16 + c * 2 ^ 8 + d) + a * 2 ^ 24) by lia.
    rewrite Z.div_add by lia.
    rewrite (Z.div_small (b * 2 ^ 16 + c * 2 ^ 8 + d)) by lia.
    apply Z.mod_small; lia. }
  rewrite Ha', Hb', Hc', Hd'. reflexivity.
Qed.


Lemma byte_high_bits (b n : Z) : is_byte b -> 8 <= n -> Z.testbit b n = false.
Proof.
  intros Hb Hn. unfold is_byte in Hb.
  destruct (Z.eq_dec b 0) as [-> | H0]; [apply Z.bits_0 |].
  assert (Z.log2 b < 8) by (apply Z.log2_lt_pow2; lia).
  apply Z.bits_above_log2; lia.
Qed.

Ltac byte_bits :=
  repeat match goal with
  | |- context [Z.testbit ?x ?n] =>
      first [ rewrite (Z.testbit_neg_r x n) by lia
            | rewrite (byte_high_bits x n) by (assumption || lia) ]
  end;
  rewrite ?orb_false_r, ?orb_false_l, ?andb_false_r, ?andb_false_l;
  try reflexivity.

Lemma land_quad (a b c d m0 m1 m2 m3 : Z) :
  bytes [a; b; c; d] -> bytes [m0; m1; m2; m3] ->
  ipToUint32 (zip_with Z.land [a; b; c; d] [m0; m1; m2; m3])
  = Z.land (ipToUint32 [a; b; c; d]) (ipToUint32 [m0; m1; m2; m3]).
Proof.
  intros H H'. unfold bytes in *. rewrite !Forall_cons in H, H'.
  destruct H as (Ha & Hb & Hc & Hd & _).
  destruct H' as (H0 & H1 & H2 & H3 & _).
  unfold ipToUint32, IP_To4. simpl.
  Z.bitblast.
  destruct (Z.lt_ge_cases i 8); [byte_bits |].
  destruct (Z.lt_ge_cases i 16); [byte_bits |].
  destruct (Z.lt_ge_cases i 24); [byte_bits |].
  byte_bits.
Qed.

Lemma land_high_mask (x k : Z) :
  0 <= k <= 32 -> 0 <= x < 2 ^ 32 ->
  Z.land x (2 ^ 32 - 2 ^ k) = x - x mod 2 ^ k.
Proof.
  intros Hk Hx.
  assert (Hsplit : 2 ^ 32 = 2 ^ (32 - k) * 2 ^ k)
    by (rewrite <- Z.pow_add_r by lia; f_equal; lia).
  assert (Hpk : 0 < 2 ^ k) by (apply Z.pow_pos_nonneg; lia).
  replace (2 ^ 32 - 2 ^ k) with (Z.shiftl (Z.ones (32 - k)) k).
  2:{ rewrite Z.shiftl_mul_pow2, Z.ones_equiv by lia. lia. }
  replace x with (x / 2 ^ k * 2 ^ k + x mod 2 ^ k) at 1.
  2:{ pose proof (Z.div_mod x (2 ^ k) ltac:(lia)). lia. }
  rewrite <- (lor_shiftl_low (x / 2 ^ k) (x mod 2 ^ k) k)
    by (try apply Z.mod_pos_bound; lia).
  rewrite Z.land_lor_distr_l.
  rewrite <- Z.shiftl_land.
  rewrite Z.land_ones by lia.
  rewrite (Z.mod_small (x / 2 ^ k)).
  2:{ split; [apply Z.div_pos; lia |]. apply Z.div_lt_upper_bound; lia. }
  assert (Hz : Z.land (x mod 2 ^ k) (Z.shiftl (Z.ones (32 - k)) k) = 0).
  { apply Z.bits_inj'. intros n Hn. rewrite Z.land_spec, Z.bits_0.
    destruct (Z.ltb_spec n k).
    - rewrite Z.shiftl_spec_low by lia. apply andb_false_r.
    - rewrite Z.mod_pow2_bits_high by lia. reflexivity. }
  rewrite Hz, Z.lor_0_r, Z.shiftl_mul_pow2 by lia.
  pose proof (Z.div_mod x (2 ^ k) ltac:(lia)). lia.
Qed.

(** ** Canonical masks *)

Lemma leading_ones_unfold (f : nat) (v n : Z) :
  leading_ones (S f) v n
  = if Z.land v 128 =? 0 then (v, n)
    else leading_ones f (Z.shiftl v 1 mod 256) (n + 1).
Proof. reflexivity. Qed.

Lemma leading_ones_shift (fuel : nat) (v n : Z) :
  leading_ones fuel v n
  = (fst (leading_ones fuel v 0), n + snd (leading_ones fuel v 0)).
Proof.
  revert v n. induction fuel as [| f IH]; intros v n.
  - simpl. f_equal. lia.
  - rewrite !leading_ones_unfold.
    destruct (Z.land v 128 =? 0); simpl; [f_equal; lia |].
    rewrite (IH _ (n + 1)), (IH _ (0 + 1)). simpl. f_equal. lia.
Qed.

#[local] Arguments leading_ones : simpl never.

Lemma byte_prefix_all : forallb byte_prefix_ok (seqZ 0 256) = true.
Proof. vm_compute. reflexivity. Qed.

Lemma leading_ones_byte (v n : Z) :
  is_byte v -> v <> 255 -> fst (leading_ones 8 v n) = 0 ->
  exists k, 0 <= k < 8 /\ v = 256 - 2 ^ (8 - k)
            /\ leading_ones 8 v n = (0, n + k).
Proof.
  intros Hv Hne Hz. rewrite leading_ones_shift in Hz |- *. cbn [fst] in Hz.
  pose proof byte_prefix_all as Hall.
  rewrite forallb_forall in Hall.
  specialize (Hall v). unfold byte_prefix_ok in Hall.
  rewrite Hz in Hall.
  assert (Hin : In v (seqZ 0 256)).
  { apply list_elem_of_In, elem_of_seqZ. unfold is_byte in Hv. lia. }
  specialize (Hall Hin).
  destruct (Z.eqb_spec v 255); [contradiction |].
  simpl in Hall.
  apply andb_prop in Hall as [Hall H3]. apply andb_prop in Hall as [H1 H2].
  exists (snd (leading_ones 8 v 0)). repeat split; try lia.
  rewrite Hz. reflexivity.
Qed.

Lemma forallb_zero (l : list Z) : forallb (Z.eqb 0) l = true -> Forall (eq 0) l.
Proof.
  induction l as [| x l IH]; simpl; intros H; constructor.
  - apply andb_prop in H as [H _]. destruct x; [reflexivity | discriminate ..].
  - apply IH. apply andb_prop in H as [_ H]. exact H.
Qed.

Ltac mask_byte H v Hv :=
    destruct (Z.eqb_spec v 255) as [-> | ?];
    [ | let E := fresh "E" in
        destruct (leading_ones 8 v _) as [v' n'] eqn:E;
        destruct (Z.eqb_spec v' 0) as [-> | ?]; simpl in *; [| congruence];
        let k := fresh "k" in let Hk := fresh "Hk" in
        let Hveq := fresh "Hveq" in let El := fresh "El" in
        destruct (leading_ones_byte v _ Hv ltac:(assumption)
                    ltac:(rewrite E; reflexivity)) as (k & Hk & Hveq & El);
        rewrite E in El; injection El as El;
        assert (k = 0 \/ k = 1 \/ k = 2 \/ k = 3 \/ k = 4 \/ k = 5 \/ k = 6 \/ k = 7)
          as Hcases by lia ].

Lemma mask_size_inv (m : IPMask) (p : Z) :
  bytes m -> IPMask_Size m = (p, 32) ->
  0 <= p <= 32 /\ length m = 4%nat
  /\ ipToUint32 m = 2 ^ 32 - 2 ^ (32 - p).
Proof.
  intros Hb Hs. unfold IPMask_Size in Hs.
  destruct (simpleMaskLength m =? -1) eqn:Hm1; [discriminate |].
  injection Hs as Hp Hlen.
  assert (Hl : length m = 4%nat) by lia.
  destruct m as [| m0 [| m1 [| m2 [| m3 [| ? ?]]]]]; try discriminate.
  clear Hlen Hl.
  unfold bytes in Hb. rewrite !Forall_cons in Hb.
  destruct Hb as (H0 & H1 & H2 & H3 & _).
  assert (Hq : bytes [m0; m1; m2; m3]) by (apply bytes_quad; auto).
  rewrite (ipToUint32_quad _ _ _ _ Hq).
  apply Z.eqb_neq in Hm1.
  unfold simpleMaskLength in Hp, Hm1. simpl in Hp, Hm1.
  mask_byte Hp m0 H0.
  - mask_byte Hp m1 H1.

    + mask_byte Hp m2 H2.
      * mask_byte Hp m3 H3.
        -- subst p. simpl. lia.
        -- subst p n'. destruct Hcases as [-> | [-> | [-> | [-> | [-> | [-> | [-> | ->]]]]]]];
             subst m3; simpl; lia.
      * destruct m3; simpl in *; [| congruence ..].
        subst p n'. destruct Hcases as [-> | [-> | [-> | [-> | [-> | [-> | [-> | ->]]]]]]];
          subst m2; simpl; lia.
    + destruct m2; simpl in *; [| congruence ..].
      destruct m3; simpl in *; [| congruence ..].
      subst p n'. destruct Hcases as [-> | [-> | [-> | [-> | [-> | [-> | [-> | ->]]]]]]];
        subst m1; simpl; lia.
  - destruct m1; simpl in *; [| congruence ..].
    destruct m2; simpl in *; [| congruence ..].
    destruct m3; simpl in *; [| congruence ..].
    subst p n'. destruct Hcases as [-> | [-> | [-> | [-> | [-> | [-> | [-> | ->]]]]]]];
      subst m0; simpl; lia.
Qed.

Lemma land_byte (a b : Z) : is_byte a -> is_byte b -> is_byte (Z.land a b).
Proof.
  unfold is_byte. intros Ha Hb.
  assert (Hab : Z.land a b = Z.land a b mod 2 ^ 8).
  { rewrite <- Z.land_ones by lia.
    rewrite (Z.land_comm a b), <- Z.land_assoc, Z.land_ones by lia.
    rewrite (Z.mod_small a) by lia. reflexivity. }
  rewrite Hab. apply Z.mod_pos_bound. lia.
Qed.

(** ** [incIP] is the successor modulo 2^32 *)

Lemma incIP_quad (a b c d : Z) :
  bytes [a; b; c; d] ->
  incIP [a; b; c; d] = ipv4 ((ipToUint32 [a; b; c; d] + 1) mod 2 ^ 32).
Proof.
  intros H. pose proof H as Hq. apply bytes_quad in Hq.
  destruct Hq as (Ha & Hb & Hc & Hd). unfold is_byte in *.
  rewrite (ipToUint32_quad _ _ _ _ H).
  assert (Hstep : forall x, 0 <= x < 255 ->
            (x + 1) mod 256 = x + 1 /\ (0 <? (x + 1) mod 256) = true).
  { intros x Hx. rewrite Z.mod_small by lia. split; [reflexivity |].
    apply Z.ltb_lt. lia. }
  assert (Hres : forall a' b' c' d', bytes [a'; b'; c'; d'] ->
            a' * 2 ^ 24 + b' * 2 ^ 16 + c' * 2 ^ 8 + d'
            = (a * 2 ^ 24 + b * 2 ^ 16 + c * 2 ^ 8 + d + 1) mod 2 ^ 32 ->
            [a'; b'; c'; d']
            = ipv4 ((a * 2 ^ 24 + b * 2 ^ 16 + c * 2 ^ 8 + d + 1) mod 2 ^ 32)).
  { intros a' b' c' d' Hb' Heq. rewrite <- Heq.
    rewrite <- (ipToUint32_quad _ _ _ _ Hb'). symmetry.
    apply ipv4_ipToUint32, Hb'. }
  unfold incIP. cbn [rev app incIP_rev].
  destruct (Z.eq_dec d 255) as [-> | Hd'].
  2:{ destruct (Hstep d ltac:(lia)) as [-> ->]. cbn [rev app].
      apply Hres; [apply bytes_quad; unfold is_byte; lia |].
      rewrite Z.mod_small by lia. lia. }
  change ((255 + 1) mod 256) with 0. cbn [Z.ltb Z.compare].
  destruct (Z.eq_dec c 255) as [-> | Hc'].
  2:{ destruct (Hstep c ltac:(lia)) as [-> ->]. cbn [rev app].
      apply Hres; [apply bytes_quad; unfold is_byte; lia |].
      rewrite Z.mod_small by lia. lia. }
  change ((255 + 1) mod 256) with 0. cbn [Z.ltb Z.compare].
  destruct (Z.eq_dec b 255) as [-> | Hb'].
  2:{ destruct (Hstep b ltac:(lia)) as [-> ->]. cbn [rev app].
      apply Hres; [apply bytes_quad; unfold is_byte; lia |].
      rewrite Z.mod_small by lia. lia. }
  change ((255 + 1) mod 256) with 0. cbn [Z.ltb Z.compare].
  destruct (Z.eq_dec a 255) as [-> | Ha'].
  2:{ destruct (Hstep a ltac:(lia)) as [-> ->]. cbn [rev app].
      apply Hres; [apply bytes_quad; unfold is_byte; lia |].
      rewrite Z.mod_small by lia. lia. }
  reflexivity.
Qed.

Lemma incIP_ipv4 (v : Z) :
  0 <= v < 2 ^ 32 -> incIP (ipv4 v) = ipv4 ((v + 1) mod 2 ^ 32).
Proof.
  intros Hv. pose proof (ipv4_bytes v) as Hb. unfold ipv4 in Hb |- * at 1.
  rewrite (incIP_quad _ _ _ _ Hb).
  change [v / 2 ^ 24 mod 256; v / 2 ^ 16 mod 256; v / 2 ^ 8 mod 256; v mod 256]
    with (ipv4 v).
  rewrite ipToUint32_ipv4 by assumption. reflexivity.
Qed.

(** ** [To4], [Mask] and [Contains] on IPv4 networks *)

Lemma To4_quad (ip : netIP) :
  bytes ip -> IP_To4 ip <> [] ->
  exists a b c d, IP_To4 ip = [a; b; c; d] /\ bytes [a; b; c; d].
Proof.
  intros Hb Hne. unfold IP_To4 in *.
  destruct (length ip =? IPv4len)%nat eqn:H4.
  - apply Nat.eqb_eq in H4.
    destruct ip as [| a [| b [| c [| d [| ? ?]]]]]; try discriminate.
    exists a, b, c, d. split; [reflexivity | exact Hb].
  - destruct (length ip =? IPv6len)%nat eqn:H16; simpl in Hne |- *;
      [| contradiction].
    apply Nat.eqb_eq in H16.
    destruct (isZeros (take 10 ip) && (nth 10 ip 0 =? 255)
              && (nth 11 ip 0 =? 255)); [| contradiction].
    do 16 (destruct ip as [| ? ip]; [discriminate |]).
    destruct ip; [| discriminate]. simpl.
    do 4 eexists. split; [reflexivity |].
    unfold bytes in *. rewrite !Forall_cons in Hb. apply bytes_quad. tauto.
Qed.

Lemma To4_of_quad (a b c d : Z) : IP_To4 [a; b; c; d] = [a; b; c; d].
Proof. reflexivity. Qed.

Lemma IP_Mask_To4 (ip : netIP) (m : IPMask) :
  length m = 4%nat -> IP_To4 ip <> [] ->
  IP_Mask ip m = zip_with Z.land (IP_To4 ip) m.
Proof.
  intros Hm Hne.
  destruct m as [| m0 [| m1 [| m2 [| m3 [| ? ?]]]]]; try discriminate.
  unfold IP_To4 in *.
  destruct (length ip =? IPv4len)%nat eqn:H4.
  - apply Nat.eqb_eq in H4.
    destruct ip as [| x0 [| x1 [| x2 [| x3 [| ? ?]]]]]; try discriminate.
    reflexivity.
  - destruct (length ip =? IPv6len)%nat eqn:H16; simpl in Hne |- *;
      [| contradiction].
    apply Nat.eqb_eq in H16.
    do 16 (destruct ip as [| ? ip]; [discriminate |]).
    destruct ip; [| discriminate].
    simpl in Hne |- *.
    repeat match type of Hne with
    | context [match ?x with 0 => _ | _ => _ end] =>
        destruct x; simpl in Hne; try contradiction
    end.
    repeat match type of Hne with
    | context [?x =? 255] =>
        destruct (Z.eqb_spec x 255); simpl in Hne; try contradiction; subst
    end.
    reflexivity.
Qed.

Section IPv4Network.
Variables (n : IPNet) (a b c d p : Z).
Hypothesis Hip : IP_To4 (IPNet_IP n) = [a; b; c; d].
Hypothesis Hipb : bytes [a; b; c; d].
Hypothesis Hmb : bytes (IPNet_Mask n).
Hypothesis Hsize : IPMask_Size (IPNet_Mask n) = (p, 32).

Let size := 2 ^ (32 - p).
Let base := ipToUint32 [a; b; c; d] - ipToUint32 [a; b; c; d] mod size.

Lemma net_p_range : 0 <= p <= 32.
Proof. apply (mask_size_inv _ _ Hmb Hsize). Qed.

Lemma net_size_pos : 0 < size.
Proof. pose proof net_p_range. apply Z.pow_pos_nonneg; lia. Qed.

Lemma net_size_le : size <= 2 ^ 32.
Proof. pose proof net_p_range. apply Z.pow_le_mono_r; lia. Qed.

Lemma net_size_divides : 2 ^ 32 = 2 ^ p * size.
Proof.
  pose proof net_p_range. unfold size.
  rewrite <- Z.pow_add_r by lia. f_equal. lia.
Qed.

Lemma net_base_range : 0 <= base /\ base + size <= 2 ^ 32 /\ base mod size = 0.
Proof.
  pose proof net_size_pos as Hs. pose proof (ipToUint32_range _ _ _ _ Hipb) as Hr.
  pose proof net_size_divides as Hd. pose proof net_p_range as Hp.
  unfold base. set (v := ipToUint32 [a; b; c; d]) in *.
  pose proof (Z.mod_pos_bound v size Hs) as Hm.
  pose proof (Z.div_mod v size ltac:(lia)) as Hdm.
  pose proof (Z.mod_le v size ltac:(lia) Hs) as Hle.
  assert (Hb : v - v mod size = size * (v / size)) by lia.
  split; [lia |]. split.
  - assert (v / size < 2 ^ p).
    { apply Z.div_lt_upper_bound; [lia |]. rewrite Z.mul_comm. lia. }
    rewrite Hb, Hd. nia.
  - rewrite Hb, Z.mul_comm. apply Z.mod_mul. lia.
Qed.

Lemma net_mask_quad :
  exists m0 m1 m2 m3, IPNet_Mask n = [m0; m1; m2; m3].
Proof.
  destruct (mask_size_inv _ _ Hmb Hsize) as (_ & Hl & _).
  destruct (IPNet_Mask n) as [| m0 [| m1 [| m2 [| m3 [| ? ?]]]]];
    try discriminate.
  eauto.
Qed.

Lemma net_masked (x0 x1 x2 x3 : Z) :
  bytes [x0; x1; x2; x3] ->
  let v := ipToUint32 [x0; x1; x2; x3] in
  zip_with Z.land [x0; x1; x2; x3] (IPNet_Mask n) = ipv4 (v - v mod size).
Proof.
  intros Hx v.
  destruct net_mask_quad as (m0 & m1 & m2 & m3 & Hm).
  destruct (mask_size_inv _ _ Hmb Hsize) as (Hp & _ & HM).
  rewrite Hm in *.
  assert (Hz : bytes (zip_with Z.land [x0; x1; x2; x3] [m0; m1; m2; m3])).
  { apply bytes_quad in Hx, Hmb. simpl. apply bytes_quad.
    repeat split; apply land_byte; tauto. }
  simpl in Hz |- *. rewrite <- (ipv4_ipToUint32 _ _ _ _ Hz). f_equal.
  change [Z.land x0 m0; Z.land x1 m1; Z.land x2 m2; Z.land x3 m3]
    with (zip_with Z.land [x0; x1; x2; x3] [m0; m1; m2; m3]).
  rewrite land_quad by assumption. rewrite HM.
  apply land_high_mask; [lia |]. apply ipToUint32_range, Hx.
Qed.

Lemma net_IP_Mask : IP_Mask (IPNet_IP n) (IPNet_Mask n) = ipv4 base.
Proof.
  destruct (mask_size_inv _ _ Hmb Hsize) as (_ & Hl & _).
  rewrite IP_Mask_To4 by (rewrite ?Hip; done).
  rewrite Hip. apply net_masked, Hipb.
Qed.

Lemma net_Contains (v : Z) :
  0 <= v < 2 ^ 32 ->
  IPNet_Contains n (ipv4 v) = bool_decide (base <= v < base + size).
Proof.
  intros Hv.
  destruct (mask_size_inv _ _ Hmb Hsize) as (Hp & Hl & HM).
  pose proof net_size_pos as Hs. pose proof net_base_range as (Hb0 & Hb1 & Hb2).
  unfold IPNet_Contains, networkNumberAndMask. rewrite Hip, Hl.
  change (IP_To4 (ipv4 v)) with (ipv4 v).
  pose proof (ipv4_bytes v) as Hvb.
  pose proof (ipToUint32_ipv4 v Hv) as Hvv.
  unfold ipv4 in Hvb, Hvv |- *.
  cbn -[zip_with Z.pow Z.div Z.modulo].
  rewrite (net_masked _ _ _ _ Hipb), (net_masked _ _ _ _ Hvb), Hvv.
  fold base.
  apply bool_decide_ext. split.
  - intros Heq. apply (f_equal ipToUint32) in Heq.
    pose proof (Z.mod_pos_bound v size Hs).
    pose proof (Z.mod_le v size ltac:(lia) Hs).
    rewrite !ipToUint32_ipv4 in Heq by lia. lia.
  - intros Hr. f_equal.
    assert (v mod size = v - base); [| lia].
    symmetry. apply Z.mod_unique_pos with (q := base / size); [lia |].
    pose proof (Z.div_mod base size ltac:(lia)). lia.
Qed.

Hypothesis Hp : 0 < p.

Lemma hosts_loop_run (r : nat) :
  forall (i : Z) (acc : list netIP) (fuel : nat),
    0 <= i -> i + Z.of_nat r = size -> (r < fuel)%nat ->
    hosts_loop fuel n (ipv4 ((base + i) mod 2 ^ 32)) acc
    = Some (acc ++ (ipv4 <$> seqZ (base + i) (Z.of_nat r))).
Proof.
  pose proof net_base_range as (Hb0 & Hb1 & _).
  pose proof net_size_pos as Hs.
  pose proof net_p_range as Hpr.
  assert (Hhalf : size <= 2 ^ 31) by (apply Z.pow_le_mono_r; lia).
  induction r as [| r IH]; intros i acc fuel Hi Hir Hfuel.
  - destruct fuel as [| f]; [lia |]. cbn [hosts_loop].
    rewrite net_Contains by (apply Z.mod_pos_bound; lia).
    rewrite bool_decide_eq_false_2.
    + rewrite seqZ_nil by lia. cbn. rewrite app_nil_r. reflexivity.
    + replace i with size by lia.
      destruct (Z.eq_dec (base + size) (2 ^ 32)) as [E | E].
      * rewrite E, Z.mod_same by lia. lia.
      * rewrite Z.mod_small by lia. lia.
  - destruct fuel as [| f]; [lia |]. cbn [hosts_loop].
    rewrite (Z.mod_small (base + i)) by lia.
    rewrite net_Contains by lia.
    rewrite bool_decide_eq_true_2 by lia.
    rewrite incIP_ipv4 by lia.
    replace (base + i + 1) with (base + (i + 1)) by lia.
    rewrite IH by lia.
    rewrite (seqZ_cons (base + i) (Z.of_nat (S r))) by lia.
    replace (Z.succ (base + i)) with (base + (i + 1)) by lia.
    replace (Z.pred (Z.of_nat (S r))) with (Z.of_nat r) by lia.
    rewrite fmap_cons, <- app_assoc. reflexivity.
Qed.

Lemma hosts_loop_all (fuel : nat) :
  (Z.to_nat size < fuel)%nat ->
  hosts_loop fuel n (ipv4 base) [] = Some (ipv4 <$> seqZ base size).
Proof.
  intros Hfuel.
  pose proof net_base_range as (Hb0 & Hb1 & _).
  pose proof net_size_pos as Hs.
  pose proof (hosts_loop_run (Z.to_nat size) 0 [] fuel) as H.
  rewrite Z.add_0_r, Z.mod_small, Z2Nat.id in H by lia.
  apply H; lia.
Qed.
End IPv4Network.

Lemma trim_ends {A} (f : Z -> A) (base size : Z) :
  2 <= size ->
  take (length (f <$> seqZ base size) - 2) (drop 1 (f <$> seqZ base size))
  = f <$> seqZ (base + 1) (size - 2).
Proof.
  intros Hs. rewrite length_fmap, length_seqZ.
  rewrite (seqZ_cons base size) by lia. rewrite fmap_cons. cbn [drop].
  replace (Z.pred size) with ((size - 2) + 1) by lia.
  rewrite seqZ_app, fmap_app by lia.
  replace (Z.succ base) with (base + 1) by lia.
  apply take_app_length'. rewrite length_fmap, length_seqZ. lia.
Qed.

Lemma seqZ_sorted (m k : Z) : StronglySorted Z.lt (seqZ m k).
Proof.
  destruct (Z.le_gt_cases k 0) as [Hk | Hk];
    [rewrite seqZ_nil by lia; constructor |].
  rewrite <- (Z2Nat.id k) by lia. generalize (Z.to_nat k) as j. clear.
  intros j. revert m. induction j as [| j IH]; intros m.
  - rewrite seqZ_nil by lia. constructor.
  - rewrite seqZ_cons by lia. constructor.
    + replace (Z.pred (Z.of_nat (S j))) with (Z.of_nat j) by lia. apply IH.
    + apply Forall_seqZ. intros. lia.
Qed.

Lemma ipToUint32_seq (m k : Z) :
  0 <= m -> m + k <= 2 ^ 32 ->
  ipToUint32 <$> (ipv4 <$> seqZ m k) = seqZ m k.
Proof.
  intros Hm Hk. rewrite <- list_fmap_compose.
  rewrite <- (list_fmap_id (seqZ m k)) at 2.
  apply Forall_fmap_ext, Forall_seqZ. intros v Hv. cbn.
  apply ipToUint32_ipv4. lia.
Qed.

Lemma ipv4_inj (v w : Z) :
  0 <= v < 2 ^ 32 -> 0 <= w < 2 ^ 32 -> ipv4 v = ipv4 w -> v = w.
Proof.
  intros Hv Hw H. apply (f_equal ipToUint32) in H.
  rewrite !ipToUint32_ipv4 in H by assumption. exact H.
Qed.

(** C2.  For an IPv4 network whose mask has prefix length [p] (that is,
    [Mask.Size()] answers [(p, 32)]): when [0 < p < 32], [HostsInNetwork]
    returns, once the loop is given enough steps, exactly
    [2^(32-p) - 2] addresses, in ascending numeric order, namely the
    addresses the network contains other than the network address (the
    first one, [base]) and the broadcast address (the last one,
    [base + 2^(32-p) - 1]); when [p] is 0 or 32 it returns no address. *)
Theorem HostsInNetwork_usable_hosts (n : IPNet) (p : Z) :
  bytes (IPNet_IP n) -> bytes (IPNet_Mask n) ->
  IP_To4 (IPNet_IP n) <> [] ->
  IPMask_Size (IPNet_Mask n) = (p, 32) ->
  let size := 2 ^ (32 - p) in
  let base := ipToUint32 (IP_Mask (IPNet_IP n) (IPNet_Mask n)) in
  (0 < p < 32 ->
   forall fuel : nat, (Z.to_nat size < fuel)%nat ->
   exists hosts : list netIP,
     HostsInNetwork fuel n = Some hosts
     /\ Z.of_nat (length hosts) = size - 2
     /\ hosts = ipv4 <$> seqZ (base + 1) (size - 2)
     /\ StronglySorted Z.lt (ipToUint32 <$> hosts)
     /\ (forall v : Z, 0 <= v < 2 ^ 32 ->
         ipv4 v ∈ hosts <->
         IPNet_Contains n (ipv4 v) = true /\ v <> base /\ v <> base + size - 1))
  /\ (p = 0 \/ p = 32 -> forall fuel : nat, HostsInNetwork fuel n = Some []).
Proof.
  intros Hib Hmb Hne Hsz size base. split.
  2:{ intros Hp fuel. unfold HostsInNetwork. rewrite Hsz.
      destruct Hp as [-> | ->]; reflexivity. }
  intros Hp fuel Hfuel.
  destruct (To4_quad _ Hib Hne) as (a & b & c & d & Hip & Hipb).
  pose proof (net_base_range n a b c d p Hipb Hmb Hsz) as (Hb0 & Hb1 & _).
  pose proof (net_IP_Mask n a b c d p Hip Hipb Hmb Hsz) as HM.
  pose proof (hosts_loop_all n a b c d p Hip Hipb Hmb Hsz ltac:(lia) fuel Hfuel)
    as Hloop.
  pose proof (fun v => net_Contains n a b c d p Hip Hipb Hmb Hsz v) as HC.
  set (base' := ipToUint32 [a; b; c; d]
                - ipToUint32 [a; b; c; d] mod 2 ^ (32 - p)) in *.
  fold size in Hb1, Hloop, HC.
  assert (Hs2 : 2 <= size).
  { change 2 with (2 ^ 1). apply Z.pow_le_mono_r; lia. }
  assert (Hbase : base = base').
  { unfold base. rewrite HM. apply ipToUint32_ipv4. lia. }
  rewrite Hbase. clearbody base'. clear Hbase base.
  exists (ipv4 <$> seqZ (base' + 1) (size - 2)).
  split; [| split; [| split; [| split]]].
  - unfold HostsInNetwork. rewrite Hsz.
    destruct (Z.eqb_spec p 0); [lia |].
    destruct (Z.eqb_spec p 32); [lia |]. cbn [orb].
    rewrite HM. unfold cloneIP. rewrite Hloop. cbn [mbind option_bind].
    destruct (2 <? length (ipv4 <$> seqZ base' size))%nat eqn:Hlen.
    + rewrite trim_ends by lia. reflexivity.
    + apply Nat.ltb_ge in Hlen. rewrite length_fmap, length_seqZ in Hlen.
      rewrite (seqZ_nil _ (size - 2)) by lia. reflexivity.
  - rewrite length_fmap, length_seqZ. lia.
  - reflexivity.
  - rewrite ipToUint32_seq by lia. apply seqZ_sorted.
  - intros v Hv. rewrite HC by assumption. rewrite bool_decide_eq_true.
    rewrite list_elem_of_fmap. setoid_rewrite elem_of_seqZ. split.
    + intros (w & Hvw & Hw). apply ipv4_inj in Hvw; [| lia ..]. lia.
    + intros (Hin & Hn1 & Hn2). exists v. split; [reflexivity | lia].
Qed.

Lemma HostsInNetwork_usable_hosts_witness :
  HostsInNetwork 5 net_192_168_1_4_30 = Some [[192;168;1;5]; [192;168;1;6]]
  /\ (let size := 2 ^ (32 - 30) in
      let base := ipToUint32 (IP_Mask (IPNet_IP net_192_168_1_4_30)
                                      (IPNet_Mask net_192_168_1_4_30)) in
      (0 < 30 < 32 ->
       forall fuel : nat, (Z.to_nat size < fuel)%nat ->
       exists hosts : list netIP,
         HostsInNetwork fuel net_192_168_1_4_30 = Some hosts
         /\ Z.of_nat (length hosts) = size - 2
         /\ hosts = ipv4 <$> seqZ (base + 1) (size - 2)
         /\ StronglySorted Z.lt (ipToUint32 <$> hosts)
         /\ (forall v : Z, 0 <= v < 2 ^ 32 ->
             ipv4 v ∈ hosts <->
             IPNet_Contains net_192_168_1_4_30 (ipv4 v) = true
             /\ v <> base /\ v <> base + size - 1))
      /\ (30 = 0 \/ 30 = 32 ->
          forall fuel : nat, HostsInNetwork fuel net_192_168_1_4_30 = Some [])).
Proof.
  split; [vm_compute; reflexivity |].
  apply (HostsInNetwork_usable_hosts net_192_168_1_4_30 30).
  - unfold bytes, is_byte. simpl. repeat (apply Forall_cons; split; [lia |]).
    apply Forall_nil. exact I.
  - unfold bytes, is_byte. simpl. repeat (apply Forall_cons; split; [lia |]).
    apply Forall_nil. exact I.
  - vm_compute. discriminate.
  - vm_compute. reflexivity.
Defined.

(** ** The probe cascade *)

Lemma probe_bind_unfold {A B} (m : Probe A) (k : A -> Probe B) net tr :
  (m ≫= k) net tr = k (m net tr).1 net (m net tr).2.
Proof.
  unfold mbind, Probe_bind, probe_bind. destruct (m net tr). reflexivity.
Qed.

Lemma tcpProbe_loop_spec (ip : string) (net : Net) (ports : list Z) :
  forall (alive : bool) (acc : list Z) (tr : list Event),
    tcpProbe_loop ip ports alive (ports_of acc) net tr
    = ((alive || existsb (fun port => match dial_tcp net ip port with
                                      | DialFailed => false
                                      | _ => true
                                      end) ports,
        ports_of (acc ++ List.filter (connected net ip) ports)),
       tr ++ (EvDialTCP ip <$> ports)).
Proof.
  induction ports as [| port rest IH]; intros alive acc tr.
  - cbn. rewrite orb_false_r, !app_nil_r. reflexivity.
  - cbn [tcpProbe_loop]. rewrite probe_bind_unfold. cbn [perform fst snd].
    rewrite fmap_cons. cbn [existsb List.filter]. unfold connected at 1.
    destruct (dial_tcp net ip port) eqn:Hd.
    + replace (append_int (ports_of acc) port) with (ports_of (acc ++ [port]))
        by (unfold append_int; destruct acc; reflexivity).
      rewrite IH, <- !app_assoc. destruct alive; reflexivity.
    + rewrite IH, <- !app_assoc. destruct alive; reflexivity.
    + rewrite IH, <- !app_assoc, orb_false_l. reflexivity.
Qed.

Lemma tcpProbe_spec (ip : string) (net : Net) (tr : list Event) :
  tcpProbe ip net tr
  = ((tcp_alive net ip, open_ports net ip), tr ++ (EvDialTCP ip <$> tcpPorts)).
Proof.
  unfold tcpProbe. change (@None (list Z)) with (ports_of []).
  rewrite tcpProbe_loop_spec. unfold tcp_alive, open_ports.
  rewrite orb_false_l, app_nil_l. reflexivity.
Qed.

(** C6.  Whenever the ping succeeds the cascade answers ICMP, whatever
    the TCP dials and the UDP exchanges answer. *)
Theorem detectHost_icmp (ip : string) (net : Net) (tr : list Event) :
  ping net ip = true -> (detectHost ip net tr).1.1 = "ICMP".
Proof.
  intros Hping. unfold detectHost.
  rewrite probe_bind_unfold. cbn [icmpPing perform fst snd].
  rewrite probe_bind_unfold, tcpProbe_spec. cbn [fst snd].
  rewrite Hping. reflexivity.
Qed.

Lemma detectHost_unfold (ip : string) (net : Net) (tr : list Event) :
  detectHost ip net tr
  = let tr1 := tr ++ EvPing ip :: (EvDialTCP ip <$> tcpPorts) in
    if ping net ip then (("ICMP", open_ports net ip), tr1)
    else if tcp_alive net ip then (("TCP", open_ports net ip), tr1)
    else if (udpProbe ip net tr1).1
         then (("UDP", open_ports net ip), (udpProbe ip net tr1).2)
         else (("", None), (udpProbe ip net tr1).2).
Proof.
  unfold detectHost.
  rewrite probe_bind_unfold. cbn [icmpPing perform fst snd].
  rewrite probe_bind_unfold, tcpProbe_spec. cbn [fst snd].
  rewrite <- app_assoc. cbn [app].
  destruct (ping net ip); [reflexivity |].
  destruct (tcp_alive net ip); [reflexivity |].
  rewrite probe_bind_unfold.
  destruct (udpProbe ip net _) as [[] tr2]; reflexivity.
Qed.

(** C8, as the code has it.  The ping and the whole TCP sweep are always
    performed, in this order, before either outcome is looked at.  When
    the ping succeeds no UDP probe is performed, the method is ICMP
    whatever the dials answer, and the open ports are those the sweep
    found; when the ping fails and the sweep proves liveness no UDP probe
    is performed either.  In both cases the output is a function of the
    ping and of the TCP dials alone. *)
Theorem detectHost_short_circuit (ip : string) (net : Net) (tr : list Event) :
  let swept := tr ++ EvPing ip :: (EvDialTCP ip <$> tcpPorts) in
  (exists udp_events, (detectHost ip net tr).2 = swept ++ udp_events)
  /\ (ping net ip = true ->
      detectHost ip net tr = (("ICMP", open_ports net ip), swept))
  /\ (ping net ip = false -> tcp_alive net ip = true ->
      detectHost ip net tr = (("TCP", open_ports net ip), swept)).
Proof.
  intros swept. rewrite detectHost_unfold. fold swept. cbn zeta.
  split; [| split].
  - destruct (ping net ip); [exists []; cbn; rewrite app_nil_r; reflexivity |].
    destruct (tcp_alive net ip);
      [exists []; cbn; rewrite app_nil_r; reflexivity |].
    assert (Hudp : forall ports tr0, exists evs,
               (udpProbe_loop ip ports net tr0).2 = tr0 ++ evs).
    { induction ports as [| port rest IH]; intros tr0.
      - exists []. cbn. rewrite app_nil_r. reflexivity.
      - cbn [udpProbe_loop]. rewrite probe_bind_unfold.
        assert (Hc : exists evs, (udpCheck ip port net tr0).2 = tr0 ++ evs).
        { unfold udpCheck. rewrite probe_bind_unfold. cbn [perform fst snd].
          destruct (dial_udp net ip port); cbn [negb];
            [| eexists; reflexivity].
          rewrite probe_bind_unfold. cbn [perform fst snd].
          destruct (udp_write net ip port (udpPayload port)); cbn [negb].
          - rewrite probe_bind_unfold. cbn [perform fst snd].
            destruct (udp_read net ip port). cbn.
            rewrite <- !app_assoc. eexists; reflexivity.
          - cbn. rewrite <- !app_assoc. eexists; reflexivity. }
        destruct Hc as [evs Hevs].
        destruct (udpCheck ip port net tr0) as [hit tr1]. cbn [fst snd] in *.
        subst tr1. destruct hit.
        + exists evs. reflexivity.
        + destruct (IH (tr0 ++ evs)) as [evs' Hevs'].
          exists (evs ++ evs'). rewrite Hevs', app_assoc. reflexivity. }
    destruct (Hudp udpPorts swept) as [evs Hevs]. exists evs.
    unfold udpProbe in *. destruct (udpProbe_loop ip udpPorts net swept).1;
      exact Hevs.
  - intros ->. reflexivity.
  - intros -> ->. reflexivity.
Qed.

Lemma detectHost_short_circuit_witness :
  ping smb_host "10.0.0.1" = true
  /\ detectHost "10.0.0.1" smb_host []
     = (("ICMP", Some [445; 139]),
        EvPing "10.0.0.1" :: (EvDialTCP "10.0.0.1" <$> tcpPorts)).
Proof.
  split; [reflexivity |].
  exact (proj1 (proj2 (detectHost_short_circuit "10.0.0.1" smb_host []))
               eq_refl).
Defined.

(** C8 as stated fails: with the ping answering, the sweep is performed
    all the same, and the output changes with what the dials answer. *)
Lemma detectHost_sweeps_after_ping :
  ping smb_host "10.0.0.1" = true /\ ping ping_only "10.0.0.1" = true
  /\ (detectHost "10.0.0.1" smb_host []).2
     = EvPing "10.0.0.1" :: (EvDialTCP "10.0.0.1" <$> tcpPorts)
  /\ (detectHost "10.0.0.1" smb_host []).1 = ("ICMP", Some [445; 139])
  /\ (detectHost "10.0.0.1" ping_only []).1 = ("ICMP", None)
  /\ (detectHost "10.0.0.1" smb_host []).1 <> (detectHost "10.0.0.1" ping_only []).1.
Proof.
  repeat split; try (vm_compute; reflexivity).
  vm_compute. discriminate.
Qed.

(** ** The diff engine *)

Lemma map_get_insert (m : gmap string bool) (k k' : string) :
  map_get (<[k := true]> m) k' = bool_decide (k = k') || map_get m k'.
Proof.
  unfold map_get. destruct (decide (k = k')) as [-> | Hne].
  - rewrite lookup_insert_eq, bool_decide_eq_true_2 by reflexivity. reflexivity.
  - rewrite lookup_insert_ne, bool_decide_eq_false_2 by assumption. reflexivity.
Qed.

Lemma map_get_empty (k : string) : map_get ∅ k = false.
Proof. unfold map_get. rewrite lookup_empty. reflexivity. Qed.

Lemma key_set_fold (rs : list ScanResult) :
  forall (m : gmap string bool) (k : string),
    map_get (fold_left (fun m r => <[IP_String (IP r) := true]> m) rs m) k
    = map_get m k || bool_decide (k ∈ address <$> rs).
Proof.
  clear parseIPv6 growcap sort_Slice ResolveHostname LookupVendor.
  induction rs as [| r rs IH]; intros m k; cbn [fold_left].
  - rewrite fmap_nil, bool_decide_eq_false_2, orb_false_r;
      [reflexivity | apply not_elem_of_nil].
  - rewrite IH, map_get_insert, fmap_cons. fold (address r).
    apply Bool.eq_iff_eq_true.
    rewrite !orb_true_iff, !bool_decide_eq_true, elem_of_cons.
    intuition (subst; auto).
Qed.

Lemma key_set_get (rs : list ScanResult) (k : string) :
  map_get (key_set rs) k = bool_decide (k ∈ address <$> rs).
Proof. unfold key_set. rewrite key_set_fold, map_get_empty. reflexivity. Qed.

Lemma gone_entries_fold (curSet : gmap string bool) (previous : list ScanResult) :
  forall acc : list ScanResult,
    fold_left (fun acc r =>
                 if negb (map_get curSet (IP_String (IP r)))
                 then acc ++ [set_Status r "GONE"] else acc)
              previous acc
    = acc ++ ((fun r => set_Status r "GONE")
                <$> filter (fun r => map_get curSet (address r) = false) previous).
Proof.
  induction previous as [| r rs IH]; intros acc; cbn [fold_left].
  - rewrite filter_nil, fmap_nil, app_nil_r. reflexivity.
  - rewrite IH, filter_cons. fold (address r).
    destruct (map_get curSet (address r)); cbn [negb].
    + rewrite decide_False by discriminate. reflexivity.
    + rewrite decide_True by reflexivity.
      rewrite fmap_cons, <- app_assoc. reflexivity.
Qed.

Lemma ComputeDiff_classify (current previous : list ScanResult) :
  ComputeDiff current previous = classify current previous.
Proof.
  try clear sort_Slice_perm.
  clear parseIPv6 growcap sort_Slice ResolveHostname LookupVendor.
  unfold ComputeDiff, classify, gone_entries. rewrite gone_entries_fold.
  cbn [app]. f_equal.
  - apply list_fmap_ext. intros i r _. unfold mark_new. fold (address r).
    rewrite key_set_get. unfold absent_from.
    destruct (decide (address r ∉ address <$> previous)) as [H | H].
    + rewrite bool_decide_eq_false_2 by assumption. reflexivity.
    + rewrite bool_decide_eq_true_2; [reflexivity |].
      destruct (decide (address r ∈ address <$> previous)); tauto.
  - f_equal. apply list_filter_iff. intros r. rewrite key_set_get.
    unfold absent_from. rewrite bool_decide_eq_false. reflexivity.
Qed.

Lemma address_set_Status (r : ScanResult) (st : string) :
  address (set_Status r st) = address r.
Proof. reflexivity. Qed.


(** ** The scan orchestrator *)

Lemma filter_sublist {A} (f : A -> bool) (l : list A) :
  List.filter f l `sublist_of` l.
Proof.
  induction l as [| x l IH]; cbn [List.filter]; [constructor |].
  destruct (f x); constructor; exact IH.
Qed.

Lemma port_list_ports_of (l : list Z) : port_list (ports_of l) = l.
Proof. destruct l; reflexivity. Qed.

Lemma detectHost_ports (ip : string) (net : Net) (tr : list Event) :
  port_list (detectHost ip net tr).1.2 `sublist_of` tcpPorts.
Proof.
  rewrite detectHost_unfold. cbn zeta.
  assert (Ho : port_list (open_ports net ip) `sublist_of` tcpPorts).
  { unfold open_ports. rewrite port_list_ports_of. apply filter_sublist. }
  destruct (ping net ip); [exact Ho |].
  destruct (tcp_alive net ip); [exact Ho |].
  destruct (udpProbe ip net _).1; [exact Ho |].
  apply sublist_nil_l.
Qed.

Lemma worker_job_scanned hosts net st idx :
  Forall scanned (results st) ->
  Forall scanned (results (worker_job hosts net st idx)).
Proof.
  intros H. unfold worker_job.
  destruct (hosts !! idx) as [ip |]; [| exact H].
  pose proof (detectHost_ports (IP_String ip) (net idx) []) as Hp.
  destruct (detectHost (IP_String ip) (net idx) []) as [[method openPorts] tr].
  cbn [fst snd] in *.
  destruct (negb (String.eqb method "")
            && negb (map_get (foundSet st) (IP_String ip))); [| exact H].
  cbn [results]. apply Forall_app. split; [exact H |].
  apply Forall_singleton. split; [reflexivity | exact Hp].
Qed.

Lemma worker_job_deduplicated hosts net st idx :
  deduplicated st -> deduplicated (worker_job hosts net st idx).
Proof.
  intros [Hnd Hfound]. unfold worker_job.
  destruct (hosts !! idx) as [ip |]; [| split; assumption].
  destruct (detectHost (IP_String ip) (net idx) []) as [[method openPorts] tr].
  cbn [fst snd].
  destruct (negb (String.eqb method "")); cbn [andb]; [| split; assumption].
  destruct (map_get (foundSet st) (IP_String ip)) eqn:Hg; cbn [negb];
    [split; assumption |].
  split; cbn [results foundSet].
  - rewrite fmap_app. apply NoDup_app. split; [exact Hnd |]. split.
    + intros k Hk Hk'. cbn in Hk'. apply list_elem_of_singleton in Hk'.
      apply list_elem_of_fmap in Hk as (r & -> & Hr).
      specialize (Hfound r Hr). unfold address, cloneIP in Hk'. cbn in Hk'.
      unfold address in Hfound. rewrite Hk' in Hfound. congruence.
    + cbn. apply NoDup_singleton.
  - intros r Hr. rewrite map_get_insert.
    apply elem_of_app in Hr as [Hr | Hr].
    + rewrite (Hfound r Hr). apply orb_true_r.
    + apply list_elem_of_singleton in Hr. subst r.
      rewrite bool_decide_eq_true_2; reflexivity.
Qed.

Lemma Scan_probe_invariant hosts workers net order :
  deduplicated (Scan_probe hosts workers net order)
  /\ Forall scanned (results (Scan_probe hosts workers net order)).
Proof.
  unfold Scan_probe.
  generalize (if workers <=? 0 then [] else order). intros jobs.
  assert (H0 : deduplicated (mkScanState ∅ [])
               /\ Forall scanned (results (mkScanState ∅ []))).
  { split; [| constructor]. split; [constructor |].
    intros r Hr. apply elem_of_nil in Hr. contradiction. }
  revert H0. generalize (mkScanState ∅ []).
  induction jobs as [| idx jobs IH]; intros st [Hd Hs]; cbn [fold_left].
  - split; assumption.
  - apply IH. split;
      [apply worker_job_deduplicated | apply worker_job_scanned]; assumption.
Qed.

Lemma Scan_arp_fold (found : gmap string bool) arpTable (hosts : list netIP) :
  forall acc : list ScanResult,
    Forall scanned acc ->
    let out := fold_left (arp_step found arpTable) hosts acc in
    Forall scanned out
    /\ (NoDup (IP_String <$> hosts) ->
        NoDup (address <$> acc) ->
        (forall r, r ∈ acc ->
           map_get found (address r) = true
           \/ address r ∉ IP_String <$> hosts) ->
        NoDup (address <$> out)).
Proof.
  induction hosts as [| ip hosts IH]; intros acc Hs; cbn [fold_left].
  - split; [exact Hs | intros _ H _; exact H].
  - assert (Hstep : Forall scanned (arp_step found arpTable acc ip)).
    { unfold arp_step. destruct (map_get found (IP_String ip)); [exact Hs |].
      destruct (arpTable !! IP_String ip) as [mac |]; [| exact Hs].
      destruct (negb (String.eqb mac "")); [| exact Hs].
      apply Forall_app. split; [exact Hs |]. apply Forall_singleton.
      split; [reflexivity |]. apply sublist_nil_l. }
    destruct (IH _ Hstep) as [IH1 IH2]. split; [exact IH1 |].
    intros Hnd Hacc Hinv. rewrite fmap_cons in Hnd.
    apply NoDup_cons in Hnd as [Hip Hnd].
    assert (Hkeep : forall r, r ∈ acc ->
              map_get found (address r) = true
              \/ address r ∉ IP_String <$> hosts).
    { intros r Hr. destruct (Hinv r Hr) as [H | H]; [left; exact H |].
      right. intros Hin. apply H. rewrite fmap_cons. apply elem_of_cons.
      right. exact Hin. }
    apply IH2; [exact Hnd | |].
    + unfold arp_step.
      destruct (map_get found (IP_String ip)) eqn:Hg; [exact Hacc |].
      destruct (arpTable !! IP_String ip) as [mac |]; [| exact Hacc].
      destruct (negb (String.eqb mac "")); [| exact Hacc].
      rewrite fmap_app. apply NoDup_app. split; [exact Hacc |]. split.
      * intros k Hk Hk'. cbn in Hk'. apply list_elem_of_singleton in Hk'.
        apply list_elem_of_fmap in Hk as (r & -> & Hr).
        unfold address at 2 in Hk'. cbn in Hk'. unfold cloneIP in Hk'.
        destruct (Hinv r Hr) as [H | H].
        -- rewrite Hk' in H. congruence.
        -- apply H. rewrite fmap_cons, Hk'. apply list_elem_of_here.
      * cbn. apply NoDup_singleton.
    + unfold arp_step.
      destruct (map_get found (IP_String ip)) eqn:Hg; [exact Hkeep |].
      destruct (arpTable !! IP_String ip) as [mac |]; [| exact Hkeep].
      destruct (negb (String.eqb mac "")); [| exact Hkeep].
      intros r Hr. apply elem_of_app in Hr as [Hr | Hr]; [apply Hkeep, Hr |].
      apply list_elem_of_singleton in Hr. subst r. right. exact Hip.
Qed.

Lemma Scan_scanned hosts workers net order arpTable :
  Forall scanned (Scan hosts workers net order arpTable).
Proof.
  unfold Scan, Scan_arp.
  destruct (Scan_probe_invariant hosts workers net order) as [_ Hs].
  apply (Scan_arp_fold _ arpTable hosts _ Hs).
Qed.

(** The scan of a list of distinct addresses has one entry per address,
    whatever the order in which the workers finish. *)
Lemma Scan_NoDup hosts workers net order arpTable :
  NoDup (IP_String <$> hosts) ->
  NoDup (address <$> Scan hosts workers net order arpTable).
Proof.
  intros Hnd. unfold Scan, Scan_arp.
  destruct (Scan_probe_invariant hosts workers net order) as [[Hd Hf] Hs].
  apply (Scan_arp_fold _ arpTable hosts _ Hs); [exact Hnd | exact Hd |].
  intros r Hr. left. apply Hf, Hr.
Qed.


(** The diff adds no live entry: the live entries of its output are
    entries of [current], so one per address when [current] has one per
    address. *)
Lemma ComputeDiff_live_NoDup (current previous : list ScanResult) :
  NoDup (address <$> current) ->
  NoDup (address <$> filter not_gone (ComputeDiff current previous)).
Proof.
  try clear sort_Slice_perm.
  clear parseIPv6 growcap sort_Slice ResolveHostname LookupVendor.
  intros Hnd. rewrite ComputeDiff_classify. unfold classify.
  rewrite filter_app.
  assert (Hgone : filter not_gone
            ((fun r => set_Status r "GONE")
               <$> filter (absent_from current) previous) = []).
  { induction (filter (absent_from current) previous) as [| r l IH];
      [reflexivity |].
    rewrite fmap_cons, filter_cons, decide_False; [exact IH |].
    unfold not_gone. cbn. tauto. }
  rewrite Hgone, app_nil_r.
  eapply sublist_NoDup; [exact Hnd |].
  clear. induction current as [| r l IH]; [constructor |].
  rewrite !fmap_cons, filter_cons.
  set (x := if decide (absent_from previous r) then set_Status r "NEW" else r).
  assert (Ha : address x = address r)
    by (unfold x; destruct (decide _); reflexivity).
  destruct (decide (not_gone x)); [rewrite fmap_cons, Ha |];
    constructor; exact IH.
Qed.

(** ** From the scan to the renderers *)

(** All that is asked of [sort.Slice]: it rearranges. *)
Hypothesis sort_Slice_perm :
  forall less (l : list ScanResult), sort_Slice less l ≡ₚ l.

Lemma enrich_address arpTable (r : ScanResult) :
  address (enrich arpTable r) = address r.
Proof. unfold enrich. destruct (arpTable !! _); reflexivity. Qed.

Lemma enrich_Status arpTable (r : ScanResult) :
  Status (enrich arpTable r) = Status r.
Proof. unfold enrich. destruct (arpTable !! _); reflexivity. Qed.

Lemma enrich_OpenPorts arpTable (r : ScanResult) :
  OpenPorts (enrich arpTable r) = OpenPorts r.
Proof. unfold enrich. destruct (arpTable !! _); reflexivity. Qed.

Lemma enrich_scanned arpTable (l : list ScanResult) :
  Forall scanned l -> Forall scanned (enrich arpTable <$> l).
Proof.
  intros H. apply Forall_fmap. eapply Forall_impl; [exact H |].
  intros r [Hs Hp]. split; cbn.
  - rewrite enrich_Status. exact Hs.
  - unfold probe_order. rewrite enrich_OpenPorts. exact Hp.
Qed.

Lemma filter_not_gone_GONE (l : list ScanResult) :
  filter not_gone ((fun r => set_Status r "GONE") <$> l) = [].
Proof.
  induction l as [| r l IH]; [reflexivity |].
  rewrite fmap_cons, filter_cons, decide_False; [exact IH |].
  unfold not_gone. cbn. tauto.
Qed.

Lemma filter_not_gone_marked (current previous : list ScanResult) :
  Forall (fun r => Status r = "") current ->
  filter not_gone
    ((fun r => if decide (absent_from previous r)
               then set_Status r "NEW" else r) <$> current)
  = (fun r => if decide (absent_from previous r)
              then set_Status r "NEW" else r) <$> current.
Proof.
  induction 1 as [| r l Hr _ IH]; [reflexivity |].
  rewrite fmap_cons, filter_cons, IH, decide_True; [reflexivity |].
  unfold not_gone. destruct (decide _); cbn; [| rewrite Hr]; discriminate.
Qed.

(** C7, as the code has it.  In the set handed to the renderers every
    entry that is not GONE has its open ports in the order in which the
    sweep dials them: a subsequence of [tcpPorts], which is not ascending. *)
Theorem rendered_ports_in_probe_order (diff : bool) (hosts : list netIP)
    (workers : Z) (net : nat -> Net) (order : list nat)
    (arpScan arpMain : gmap string string) (fs : FS) :
  Forall (fun r => not_gone r -> probe_order r)
    (main_tail diff (Scan hosts workers net order arpScan) arpMain fs).1.
Proof.
  clear growcap.
  pose proof (Scan_scanned hosts workers net order arpScan) as Hs.
  apply (enrich_scanned arpMain) in Hs.
  unfold main_tail. cbv zeta.
  set (cur := sort_Slice by_address
                (enrich arpMain <$> Scan hosts workers net order arpScan)).
  assert (Hcur : Forall scanned cur)
    by (unfold cur; rewrite sort_Slice_perm; exact Hs).
  destruct diff; cbn [fst].
  2:{ eapply Forall_impl; [exact Hcur |]. intros r [_ Hp] _. exact Hp. }
  apply Forall_forall. intros r Hr Hng.
  rewrite sort_Slice_perm, ComputeDiff_classify in Hr. unfold classify in Hr.
  apply elem_of_app in Hr as [Hr | Hr];
    apply list_elem_of_fmap in Hr as (r0 & -> & Hr0).
  - rewrite Forall_forall in Hcur. destruct (Hcur r0 Hr0) as [_ Hp].
    destruct (decide _); exact Hp.
  - unfold not_gone in Hng. cbn in Hng. tauto.
Qed.

(** C5.  In diff mode the file written back holds the entries of the
    final set whose status is not GONE, and no other: a GONE entry is
    never persisted.  When the scan left every status unset these are the
    addresses of the current scan, once each. *)
Theorem main_saves_only_live_entries (results : list ScanResult)
    (arpTable : gmap string string) (fs : FS) :
  let final := (main_tail true results arpTable fs).1 in
  let fs' := (main_tail true results arpTable fs).2 in
  let saved := filter not_gone final in
  (writable fs = true ->
   last_json fs' = Some (Doc (marshal_entries (toHistoryEntry <$> saved))))
  /\ (writable fs = false -> fs' = fs)
  /\ (forall r, r ∈ saved <-> r ∈ final /\ Status r <> "GONE")
  /\ (Forall (fun r => Status r = "") results ->
      address <$> saved ≡ₚ address <$> results).
Proof.
  clear growcap.
  cbv zeta. unfold main_tail. cbv zeta. cbn [fst snd].
  unfold SaveHistory.
  split; [| split; [| split]].
  - intros ->. reflexivity.
  - intros ->. reflexivity.
  - intros r. rewrite list_elem_of_filter. unfold not_gone. tauto.
  - intros Hunset.
    set (cur := sort_Slice by_address (enrich arpTable <$> results)).
    assert (Hperm : cur ≡ₚ enrich arpTable <$> results)
      by apply sort_Slice_perm.
    assert (Hcur : Forall (fun r => Status r = "") cur).
    { rewrite Hperm. apply Forall_fmap.
      eapply Forall_impl; [exact Hunset |].
      intros r Hr. cbn. rewrite enrich_Status. exact Hr. }
    clearbody cur.
    rewrite (sort_Slice_perm by_address (ComputeDiff cur _)).
    rewrite ComputeDiff_classify. unfold classify.
    rewrite filter_app, filter_not_gone_GONE, app_nil_r.
    rewrite (filter_not_gone_marked _ _ Hcur).
    rewrite <- list_fmap_compose.
    rewrite (list_fmap_ext (address ∘ _) address cur).
    2:{ intros i r _. cbn. destruct (decide _); reflexivity. }
    rewrite Hperm, <- list_fmap_compose.
    apply Permutation_refl'. apply list_fmap_ext.
    intros i r _. cbn. apply enrich_address.
Qed.

(** ** The text form of IPv4 addresses *)








Lemma IP_String_v4 (ip : netIP) (a b c d : Z) :
  IP_To4 ip = [a; b; c; d] -> IP_String ip = dotted a b c d.
Proof.
  intros H. unfold IP_String. rewrite H.
  unfold IP_To4 in H.
  destruct (length ip =? IPv4len)%nat eqn:H4.
  - apply Nat.eqb_eq in H4. rewrite H4. reflexivity.
  - destruct (length ip =? IPv6len)%nat eqn:H16.
    + apply Nat.eqb_eq in H16. rewrite H16. reflexivity.
    + cbn in H. discriminate.
Qed.


(** ** The history store *)









(** ** Slices in memory *)

Lemma array_of_store_same (h : heap) (s s' : slice) (i : nat) (x : ScanResult) :
  ptr s' = ptr s ->
  array_of (store h s i x) s' = <[(off s + i)%nat := x]> (array_of h s').
Proof.
  intros E. unfold array_of, store. rewrite E, list_lookup_alter_eq.
  destruct (h !! ptr s); reflexivity.
Qed.

Lemma store_lookup_ne (h : heap) (s : slice) (i : nat) (x : ScanResult) (q : nat) :
  q <> ptr s -> store h s i x !! q = h !! q.
Proof. intros H. unfold store. apply list_lookup_alter_ne. congruence. Qed.

Lemma store_length_at (h : heap) (s : slice) (i : nat) (x : ScanResult) (q : nat) :
  length <$> store h s i x !! q = length <$> h !! q.
Proof.
  unfold store. destruct (decide (q = ptr s)) as [-> | H].
  - rewrite list_lookup_alter_eq. destruct (h !! ptr s); cbn; [| reflexivity].
    rewrite length_insert. reflexivity.
  - rewrite list_lookup_alter_ne by congruence. reflexivity.
Qed.

Lemma length_store (h : heap) (s : slice) (i : nat) (x : ScanResult) :
  length (store h s i x) = length h.
Proof. apply length_alter. Qed.

Lemma array_of_ext (h h' : heap) (s : slice) :
  h' !! ptr s = h !! ptr s -> array_of h' s = array_of h s.
Proof. unfold array_of. intros ->. reflexivity. Qed.

Lemma contents_ext (h h' : heap) (s : slice) :
  h' !! ptr s = h !! ptr s -> contents h' s = contents h s.
Proof. unfold contents. intros H. rewrite (array_of_ext _ _ _ H). reflexivity. Qed.

Lemma load_ext (h h' : heap) (s : slice) (i : nat) :
  h' !! ptr s = h !! ptr s -> load h' s i = load h s i.
Proof. unfold load. intros H. rewrite (array_of_ext _ _ _ H). reflexivity. Qed.

Lemma length_contents (h : heap) (s : slice) :
  valid h s -> length (contents h s) = len s.
Proof.
  intros (H1 & H2 & _). unfold contents.
  rewrite length_take, length_drop. lia.
Qed.

Lemma contents_lookup (h : heap) (s : slice) (i : nat) :
  (i < len s)%nat -> contents h s !! i = array_of h s !! (off s + i)%nat.
Proof.
  intros H. unfold contents. rewrite lookup_take_lt, lookup_drop by exact H.
  reflexivity.
Qed.

Lemma contents_load (h : heap) (s : slice) (i : nat) :
  valid h s -> (i < len s)%nat -> contents h s !! i = Some (load h s i).
Proof.
  intros (H1 & H2 & _) Hi. rewrite contents_lookup by exact Hi. unfold load.
  destruct (lookup_lt_is_Some_2 (array_of h s) (off s + i)) as [x Hx]; [lia |].
  rewrite Hx. reflexivity.
Qed.

Lemma contents_store (h : heap) (s : slice) (i : nat) (x : ScanResult) :
  valid h s -> (i < len s)%nat ->
  contents (store h s i x) s = <[i := x]> (contents h s).
Proof.
  intros Hv Hi. pose proof (length_contents h s Hv) as Hl.
  destruct Hv as (H1 & H2 & _).
  apply list_eq. intros j. unfold contents at 1.
  rewrite (array_of_store_same h s s i x eq_refl).
  destruct (decide (j < len s)%nat) as [Hj | Hj].
  - rewrite lookup_take_lt, lookup_drop by exact Hj.
    destruct (decide (i = j)) as [-> | Hne].
    + rewrite !list_lookup_insert_eq by lia. reflexivity.
    + rewrite !list_lookup_insert_ne by lia.
      rewrite contents_lookup by exact Hj. reflexivity.
  - rewrite lookup_take_ge by lia. symmetry. apply lookup_ge_None_2.
    rewrite length_insert. lia.
Qed.

Lemma store_load_id (h : heap) (s : slice) (i : nat) :
  valid h s -> (i < len s)%nat -> store h s i (load h s i) = h.
Proof.
  intros (H1 & H2 & _) Hi. unfold store, load, array_of.
  apply list_eq. intros q. destruct (decide (q = ptr s)) as [-> | Hne].
  - rewrite list_lookup_alter_eq.
    unfold array_of in H2. destruct (h !! ptr s) as [arr |] eqn:E;
      [| reflexivity].
    cbn in *. f_equal.
    destruct (lookup_lt_is_Some_2 arr (off s + i)) as [x Hx]; [lia |].
    rewrite Hx. cbn. apply list_insert_id, Hx.
  - apply list_lookup_alter_ne. congruence.
Qed.

Lemma store_valid (h : heap) (s s' : slice) (i : nat) (x : ScanResult) :
  valid h s' -> valid (store h s i x) s'.
Proof.
  intros (H1 & H2 & H3). unfold valid. rewrite length_store.
  split; [exact H1 |]. split; [| exact H3].
  pose proof (store_length_at h s i x (ptr s')) as Hl.
  unfold array_of in *.
  destruct (store h s i x !! ptr s'), (h !! ptr s'); cbn in *;
    try discriminate; try lia.
  injection Hl as ->. exact H2.
Qed.

(** ** [ComputeDiff] in memory: the marking loop *)

Lemma diff_mark_step prevSet (current : slice) (h : heap)
    (m : gmap string bool) (i : nat) :
  valid h current -> (i < len current)%nat ->
  diff_mark prevSet current (h, m) i
  = (store h current i (mark_new prevSet (load h current i)),
     <[IP_String (IP (load h current i)) := true]> m).
Proof.
  intros Hv Hi. unfold diff_mark, mark_new.
  destruct (negb (map_get prevSet (IP_String (IP (load h current i)))));
    [reflexivity |].
  rewrite (store_load_id h current i Hv Hi). reflexivity.
Qed.

Lemma mark_loop prevSet (current : slice) (h : heap) (m0 : gmap string bool) :
  valid h current ->
  forall k : nat, (k <= len current)%nat ->
    let st := fold_left (diff_mark prevSet current) (seq 0 k) (h, m0) in
    valid st.1 current
    /\ length st.1 = length h
    /\ (forall q, q <> ptr current -> st.1 !! q = h !! q)
    /\ (forall q, length <$> st.1 !! q = length <$> h !! q)
    /\ contents st.1 current
       = (mark_new prevSet <$> take k (contents h current))
         ++ drop k (contents h current)
    /\ st.2 = fold_left (fun m r => <[IP_String (IP r) := true]> m)
                 (take k (contents h current)) m0.
Proof.
  intros Hv k. induction k as [| k IH]; intros Hk; cbn zeta.
  - cbn [seq fold_left fst snd]. rewrite take_0, drop_0.
    repeat split; try assumption; try reflexivity; try apply Hv.
  - rewrite seq_S, fold_left_app. cbn [fold_left Nat.add].
    specialize (IH ltac:(lia)). cbn zeta in IH.
    destruct (fold_left (diff_mark prevSet current) (seq 0 k) (h, m0))
      as [hk mk].
    cbn [fst snd] in IH. destruct IH as (Hvk & Hlen & Hfr & Hls & Hc & Hm).
    rewrite (diff_mark_step prevSet current hk mk k Hvk ltac:(lia)).
    cbn [fst snd].
    set (l := contents h current) in *.
    assert (Hl : length l = len current) by (apply length_contents, Hv).
    set (x := load hk current k).
    assert (Hx : l !! k = Some x).
    { pose proof (contents_load hk current k Hvk ltac:(lia)) as Hld.
      rewrite Hc in Hld. rewrite lookup_app_r in Hld
        by (rewrite length_fmap, length_take; lia).
      rewrite length_fmap, length_take, lookup_drop in Hld.
      replace (k + (k - k `min` length l))%nat with k in Hld by lia.
      exact Hld. }
    split; [apply store_valid, Hvk |].
    split; [rewrite length_store; exact Hlen |].
    split; [intros q Hq; rewrite store_lookup_ne by exact Hq; apply Hfr, Hq |].
    split; [intros q; rewrite store_length_at; apply Hls |].
    split.
    + rewrite (contents_store hk current k _ Hvk ltac:(lia)), Hc.
      rewrite insert_app_r_alt by (rewrite length_fmap, length_take; lia).
      rewrite length_fmap, length_take.
      replace (k - k `min` length l)%nat with 0%nat by lia.
      rewrite (drop_S l x k Hx). cbn [insert list_insert].
      rewrite (take_S_r l k x Hx), fmap_app. cbn [fmap list_fmap].
      rewrite <- app_assoc. reflexivity.
    + rewrite (take_S_r l k x Hx), fold_left_app, <- Hm. reflexivity.
Qed.

Lemma mark_loop_all prevSet (current : slice) (h : heap) :
  valid h current ->
  let st := fold_left (diff_mark prevSet current) (seq 0 (len current)) (h, ∅) in
  valid st.1 current
  /\ length st.1 = length h
  /\ (forall q, q <> ptr current -> st.1 !! q = h !! q)
  /\ (forall q, length <$> st.1 !! q = length <$> h !! q)
  /\ contents st.1 current = mark_new prevSet <$> contents h current
  /\ st.2 = key_set (contents h current)
  /\ (len current = 0%nat -> st.1 = h).
Proof.
  intros Hv st.
  destruct (mark_loop prevSet current h ∅ Hv (len current) ltac:(lia))
    as (H1 & H2 & H3 & H4 & H5 & H6).
  fold st in H1, H2, H3, H4, H5, H6.
  pose proof (length_contents h current Hv) as Hl.
  rewrite take_ge, drop_ge, app_nil_r in H5 by lia.
  rewrite take_ge in H6 by lia.
  split; [exact H1 |]. split; [exact H2 |]. split; [exact H3 |].
  split; [exact H4 |]. split; [exact H5 |]. split; [exact H6 |].
  intros H0. unfold st. rewrite H0. reflexivity.
Qed.

(** ** [append] *)

Lemma valid_mono (h h' : heap) (s : slice) :
  valid h s -> (length h <= length h')%nat ->
  (forall q, (q < length h)%nat -> length <$> h' !! q = length <$> h !! q) ->
  valid h' s.
Proof.
  intros (H1 & H2 & H3) Hle Hls. unfold valid, array_of in *.
  split; [exact H1 |].
  destruct (decide (ptr s < length h)%nat) as [Hp | Hp].
  - specialize (Hls _ Hp). split; [| lia].
    destruct (h' !! ptr s), (h !! ptr s); cbn in *; try discriminate; try lia.
    injection Hls as ->. exact H2.
  - rewrite (lookup_ge_None_2 h) in H2 by lia. cbn in H2.
    split; [lia |]. intros Hc. lia.
Qed.

Lemma append_spec (h : heap) (s : slice) (x : ScanResult) :
  valid h s ->
  let st := append h s x in
  valid st.1 st.2
  /\ contents st.1 st.2 = contents h s ++ [x]
  /\ (length h <= length st.1)%nat
  /\ (forall q, (q < length h)%nat -> q <> ptr s -> st.1 !! q = h !! q)
  /\ (forall q, (q < length h)%nat -> length <$> st.1 !! q = length <$> h !! q)
  /\ ((ptr st.2 = ptr s /\ off st.2 = off s /\ cap st.2 = cap s
       /\ (len s < cap s)%nat)
      \/ (ptr st.2 = length h /\ (0 < cap st.2)%nat /\ len s = cap s))
  /\ len st.2 = S (len s).
Proof.
  intros Hv. pose proof (length_contents h s Hv) as Hl.
  destruct Hv as (H1 & H2 & H3). unfold append.
  destruct (Nat.ltb_spec (len s) (cap s)) as [Hlt | Hge]; cbn zeta;
    cbn [fst snd ptr off len cap].
  - split; [| split; [| split; [| split; [| split; [| split]]]]].
    + unfold valid. cbn [ptr off len cap]. rewrite length_store.
      split; [lia |]. split; [| intros _; apply H3; lia].
      rewrite array_of_store_same by reflexivity. rewrite length_insert.
      unfold array_of in *. cbn [ptr].
      exact H2.
    + unfold contents at 1. cbn [ptr off len cap].
      rewrite array_of_store_same by reflexivity.
      rewrite (take_S_r _ _ x).
      2:{ rewrite lookup_drop. cbn [off len]. apply list_lookup_insert_eq.
          unfold array_of in *. cbn [ptr]. lia. }
      f_equal. apply list_eq. intros j. unfold contents.
      destruct (decide (j < len s)%nat) as [Hj | Hj].
      * rewrite !lookup_take_lt, !lookup_drop by exact Hj.
        apply list_lookup_insert_ne. lia.
      * rewrite !lookup_take_ge by lia. reflexivity.
    + rewrite length_store. lia.
    + intros q _ Hq. apply store_lookup_ne, Hq.
    + intros q _. apply store_length_at.
    + left. repeat split. exact Hlt.
    + reflexivity.
  - assert (Hlookup : forall new : list ScanResult,
              array_of (h ++ [new]) (mkSlice (length h) 0 (S (len s))
                (S (len s) `max` growcap (S (len s)) (cap s))) = new).
    { intros new. unfold array_of. cbn [ptr].
      rewrite lookup_app_r, Nat.sub_diag by lia. reflexivity. }
    split; [| split; [| split; [| split; [| split; [| split]]]]].
    + unfold valid. cbn [ptr off len cap]. rewrite Hlookup.
      rewrite length_app, !length_app. cbn [length].
      rewrite length_replicate, Hl. lia.
    + unfold contents at 1. cbn [ptr off len cap]. rewrite Hlookup, drop_0.
      rewrite (cons_middle x), app_assoc.
      apply take_app_length'. rewrite length_app, Hl. cbn. lia.
    + rewrite length_app. lia.
    + intros q Hq _. apply lookup_app_l, Hq.
    + intros q Hq. rewrite lookup_app_l by exact Hq. reflexivity.
    + right. split; [reflexivity |]. split; lia.
    + reflexivity.
Qed.

Lemma append_contents_other (h : heap) (s s0 : slice) (x : ScanResult) :
  valid h s ->
  (len s0 = 0%nat
   \/ ((ptr s0 < length h)%nat
       /\ ((len s < cap s)%nat ->
           ptr s0 <> ptr s \/ (off s0 = off s /\ (len s0 <= len s)%nat)))) ->
  contents (append h s x).1 s0 = contents h s0.
Proof.
  intros Hv [H0 | [Hp Hsep]].
  { unfold contents. rewrite H0, !take_0. reflexivity. }
  unfold append. destruct (Nat.ltb_spec (len s) (cap s)) as [Hlt | Hge];
    cbn [fst].
  - destruct (Hsep Hlt) as [Hne | [Hoff Hlen]].
    + apply contents_ext, store_lookup_ne, Hne.
    + destruct (decide (ptr s0 = ptr s)) as [E | Hne];
        [| apply contents_ext, store_lookup_ne, Hne].
      unfold contents. rewrite (array_of_store_same h s s0 _ x E).
      apply list_eq. intros j.
      destruct (decide (j < len s0)%nat) as [Hj | Hj].
      * rewrite !lookup_take_lt, !lookup_drop by exact Hj.
        apply list_lookup_insert_ne. lia.
      * rewrite !lookup_take_ge by lia. reflexivity.
  - apply contents_ext, lookup_app_l, Hp.
Qed.

(** ** [ComputeDiff] in memory: the appending loop *)

Section GoneLoop.
Variables (h1 : heap) (current previous : slice) (curSet : gmap string bool).
Hypothesis Hvc : valid h1 current.
Hypothesis Hvp : valid h1 previous.
Hypothesis Hsep : separate current previous.

(** Where the slice being appended to lives: still in the array of
    [current], or in an array allocated since. *)
Let placed (c : slice) : Prop :=
  (ptr c = ptr current /\ off c = off current /\ cap c = cap current
   /\ (len current <= len c)%nat)
  \/ ((length h1 <= ptr c)%nat /\ (0 < cap c)%nat).

Lemma gone_loop (j : nat) :
  (j <= len previous)%nat ->
  let st := fold_left (diff_gone curSet previous) (seq 0 j) (h1, current) in
  valid st.1 st.2
  /\ (length h1 <= length st.1)%nat
  /\ (forall q, (q < length h1)%nat ->
        length <$> st.1 !! q = length <$> h1 !! q)
  /\ (forall q, (q < length h1)%nat -> q <> ptr current ->
        st.1 !! q = h1 !! q)
  /\ placed st.2
  /\ contents st.1 current = contents h1 current
  /\ contents st.1 previous = contents h1 previous
  /\ contents st.1 st.2
     = contents h1 current
       ++ gone_entries curSet (take j (contents h1 previous)).
Proof.
  induction j as [| j IH]; intros Hj; cbn zeta.
  - cbn [seq fold_left fst snd]. rewrite take_0.
    split; [exact Hvc |]. split; [lia |]. split; [reflexivity |].
    split; [reflexivity |]. split; [left; repeat split; lia |].
    split; [reflexivity |]. split; [reflexivity |].
    unfold gone_entries. cbn. rewrite app_nil_r. reflexivity.
  - rewrite seq_S, fold_left_app. cbn [fold_left Nat.add].
    specialize (IH ltac:(lia)). cbn zeta in IH.
    destruct (fold_left (diff_gone curSet previous) (seq 0 j) (h1, current))
      as [hj cj].
    cbn [fst snd] in IH.
    destruct IH as (I1 & I2 & I3 & I4 & I5 & I6 & I7 & I8).
    assert (Hvpj : valid hj previous) by (eapply valid_mono; eassumption).
    set (P := contents h1 previous) in *.
    set (r := load hj previous j).
    assert (Hr : P !! j = Some r).
    { rewrite <- I7. apply contents_load; [exact Hvpj | lia]. }
    assert (Hgone : gone_entries curSet (take (S j) P)
              = gone_entries curSet (take j P)
                ++ (if negb (map_get curSet (IP_String (IP r)))
                    then [set_Status r "GONE"] else [])).
    { rewrite (take_S_r P j r Hr). unfold gone_entries.
      rewrite fold_left_app. cbn [fold_left].
      destruct (negb _); [reflexivity | rewrite app_nil_r; reflexivity]. }
    rewrite Hgone. unfold diff_gone. fold r.
    destruct (negb (map_get curSet (IP_String (IP r)))).
    2:{ cbn [fst snd]. rewrite app_nil_r.
        exact (conj I1 (conj I2 (conj I3 (conj I4 (conj I5
                 (conj I6 (conj I7 I8))))))). }
    assert (Hcp : (0 < cap previous)%nat) by (destruct Hvp; lia).
    assert (Hpp : (ptr previous < length h1)%nat) by (apply Hvp, Hcp).
    pose proof (append_spec hj cj (set_Status r "GONE") I1) as Ha.
    cbn zeta in Ha.
    pose proof (append_contents_other hj cj previous (set_Status r "GONE") I1)
      as Hop.
    pose proof (append_contents_other hj cj current (set_Status r "GONE") I1)
      as Hoc.
    destruct (append hj cj (set_Status r "GONE")) as [h' c'].
    cbn [fst snd] in *.
    destruct Ha as (A1 & A2 & A3 & A4 & A5 & A6 & A7).
    split; [exact A1 |]. split; [lia |].
    split; [intros q Hq; rewrite A5 by lia; apply I3, Hq |].
    split.
    { intros q Hq Hne. rewrite A4; [apply I4; assumption | lia |].
      destruct I5 as [(E & _) | (E & _)]; [congruence | lia]. }
    split.
    { destruct A6 as [(E1 & E2 & E3 & E4) | (E1 & E2 & E3)].
      - destruct I5 as [(F1 & F2 & F3 & F4) | (F1 & F2)].
        + left. repeat split; try congruence. lia.
        + right. split; [congruence | lia].
      - right. split; lia. }
    split.
    { rewrite Hoc; [exact I6 |].
      destruct (decide (len current = 0%nat)) as [E | E]; [left; exact E |].
      right. assert (Hcc : (0 < cap current)%nat) by (destruct Hvc; lia).
      split; [pose proof (proj2 (proj2 Hvc) Hcc); lia |].
      intros _. destruct I5 as [(F1 & F2 & F3 & F4) | (F1 & F2)].
      - right. split; [congruence | lia].
      - left. pose proof (proj2 (proj2 Hvc) Hcc). lia. }
    split.
    { rewrite Hop; [exact I7 |]. right. split; [lia |].
      intros Hlt. left.
      destruct I5 as [(F1 & F2 & F3 & F4) | (F1 & F2)]; [| lia].
      destruct Hsep as [E | [E | E]]; [lia | lia | congruence]. }
    rewrite A2, I8, <- app_assoc. reflexivity.
Qed.
End GoneLoop.

(** ** [ComputeDiff] in memory: the call *)

(** On distinct arrays the call returns what [ComputeDiff] computes from
    the contents, has marked the entries of [current] in place, and has
    left [previous] and every other array of the caller as they were. *)
Lemma ComputeDiffM_spec (h : heap) (current previous : slice) :
  valid h current -> valid h previous -> separate current previous ->
  let st := ComputeDiffM h current previous in
  valid st.1 st.2 /\ valid st.1 current /\ valid st.1 previous
  /\ separate st.2 previous
  /\ contents st.1 st.2
     = ComputeDiff (contents h current) (contents h previous)
  /\ contents st.1 current
     = mark_new (key_set (contents h previous)) <$> contents h current
  /\ contents st.1 previous = contents h previous
  /\ (forall q, (q < length h)%nat -> q <> ptr current -> st.1 !! q = h !! q).
Proof.
  intros Hvc Hvp Hsep. unfold ComputeDiffM.
  pose proof (mark_loop_all (key_set (contents h previous)) current h Hvc)
    as Hm. cbn zeta in Hm.
  destruct (fold_left _ (seq 0 (len current)) (h, ∅)) as [h1 curSet].
  cbn [fst snd] in Hm.
  destruct Hm as (M1 & M2 & M3 & M4 & M5 & M6 & M7).
  assert (Hvp1 : valid h1 previous).
  { apply (valid_mono h); [exact Hvp | lia | intros q _; apply M4]. }
  assert (Hp1 : contents h1 previous = contents h previous).
  { destruct (decide (ptr previous = ptr current)) as [E | E];
      [| apply contents_ext, M3, E].
    destruct Hsep as [Hc | [Hc | Hc]]; [| | congruence].
    - rewrite M7; [reflexivity |]. destruct Hvc. lia.
    - unfold contents. replace (len previous) with 0%nat
        by (destruct Hvp; lia).
      rewrite !take_0. reflexivity. }
  pose proof (gone_loop h1 current previous curSet M1 Hvp1 Hsep
                (len previous) ltac:(lia)) as Hg.
  cbn zeta in Hg.
  destruct (fold_left _ (seq 0 (len previous)) (h1, current)) as [h2 out].
  cbn [fst snd] in *.
  destruct Hg as (G1 & G2 & G3 & G4 & G5 & G6 & G7 & G8).
  rewrite take_ge in G8 by (rewrite length_contents; [lia | exact Hvp1]).
  split; [exact G1 |].
  split; [apply (valid_mono h1); assumption |].
  split; [apply (valid_mono h1); assumption |].
  split.
  { destruct G5 as [(E1 & _ & E3 & _) | (E1 & E2)].
    - destruct Hsep as [Hc | [Hc | Hc]];
        [left; congruence | right; left; exact Hc | right; right; congruence].
    - destruct (decide (cap previous = 0%nat)) as [Hc | Hc];
        [right; left; exact Hc |].
      right. right. pose proof (proj2 (proj2 Hvp1) ltac:(lia)). lia. }
  split.
  { rewrite G8, M5, M6, Hp1. reflexivity. }
  split; [rewrite G6; exact M5 |].
  split; [rewrite G7; exact Hp1 |].
  intros q Hq Hne. rewrite G4 by (try lia; exact Hne). apply M3, Hne.
Qed.

Lemma absent_from_marked (previous : list ScanResult) (r : ScanResult) (st : string) :
  absent_from previous (set_Status r st) <-> absent_from previous r.
Proof. reflexivity. Qed.

(** Marking is idempotent, so a second run over the marked [current]
    returns the same set. *)
Lemma ComputeDiff_marked (current previous : list ScanResult) :
  ComputeDiff (mark_new (key_set previous) <$> current) previous
  = ComputeDiff current previous.
Proof.
  try clear sort_Slice_perm.
  clear parseIPv6 growcap sort_Slice ResolveHostname LookupVendor.
  unfold ComputeDiff. set (prevSet := key_set previous).
  assert (Hkeys : key_set (mark_new prevSet <$> current) = key_set current).
  { clearbody prevSet. unfold key_set. generalize (∅ : gmap string bool).
    induction current as [| r l IH]; intros m; [reflexivity |].
    rewrite fmap_cons. cbn [fold_left]. rewrite IH. f_equal.
    unfold mark_new. destruct (negb _); reflexivity. }
  rewrite Hkeys. f_equal. rewrite <- list_fmap_compose.
  apply list_fmap_ext. intros i r _. cbn. unfold mark_new.
  destruct (negb (map_get prevSet (IP_String (IP r)))) eqn:E.
  - cbn [set_Status IP]. rewrite E. reflexivity.
  - rewrite E. reflexivity.
Qed.

Lemma filter_none {A} (P : A -> Prop) `{!forall x, Decision (P x)} (l : list A) :
  Forall (fun x => ~ P x) l -> filter P l = [].
Proof.
  induction 1 as [| x l Hx _ IH]; [reflexivity |].
  rewrite filter_cons_False by exact Hx. exact IH.
Qed.

(** The diff of its own output against the same [previous] is that
    output. *)
Lemma ComputeDiff_idempotent (current previous : list ScanResult) :
  ComputeDiff (ComputeDiff current previous) previous
  = ComputeDiff current previous.
Proof.
  try clear sort_Slice_perm.
  clear parseIPv6 growcap sort_Slice ResolveHostname LookupVendor.
  rewrite !ComputeDiff_classify.
  set (mark := fun r => if decide (absent_from previous r)
                        then set_Status r "NEW" else r).
  set (gone := fun r => set_Status r "GONE").
  unfold classify at 1. fold mark gone.
  set (out := classify current previous).
  assert (Hout : out = (mark <$> current)
                       ++ (gone <$> filter (absent_from current) previous))
    by reflexivity.
  assert (Haddr : forall r, address (mark r) = address r)
    by (intros r; unfold mark; destruct (decide _); reflexivity).
  assert (Hmm : forall r, mark (mark r) = mark r).
  { intros r. unfold mark.
    destruct (decide (absent_from previous r)) as [Ha | Ha].
    - rewrite decide_True by exact Ha. reflexivity.
    - rewrite decide_False by exact Ha. reflexivity. }
  assert (Hmg : forall r, r ∈ previous -> mark (gone r) = gone r).
  { intros r Hr. unfold mark. rewrite decide_False; [reflexivity |].
    unfold absent_from. intros Hn. apply Hn.
    change (address (gone r)) with (address r).
    apply list_elem_of_fmap_2, Hr. }
  assert (Hnone : filter (absent_from out) previous = []).
  { assert (Hall : Forall (fun r => ~ absent_from out r) previous).
    { apply Forall_forall. intros r Hr Habs. apply Habs. rewrite Hout, fmap_app.
      apply elem_of_app.
      destruct (decide (absent_from current r)) as [Ha | Ha].
      - right. change (address r) with (address (gone r)).
        apply list_elem_of_fmap_2, list_elem_of_fmap_2.
        apply list_elem_of_filter. split; assumption.
      - left. unfold absent_from in Ha.
        destruct (decide (address r ∈ address <$> current)) as [Hin | Hin];
          [| tauto].
        apply list_elem_of_fmap in Hin as (r0 & E & Hr0).
        rewrite E, <- (Haddr r0).
        apply list_elem_of_fmap_2, list_elem_of_fmap_2, Hr0. }
    apply filter_none, Hall. }
  rewrite Hnone, fmap_nil, app_nil_r, Hout, fmap_app. f_equal.
  - rewrite <- list_fmap_compose. apply list_fmap_ext. intros i r _. apply Hmm.
  - rewrite <- list_fmap_compose. apply Forall_fmap_ext, Forall_forall.
    intros r Hr. apply list_elem_of_filter in Hr as [_ Hr]. apply Hmg, Hr.
Qed.


(** C9, as the code has it.  The call is not pure: it sets the status of
    the caller's [current] entries in place.  On slices that do not share
    memory it is a function of the contents of the two slices; run again
    on the same, now marked, [current] it returns an identical set; run on
    its own output it returns that output. *)
Theorem ComputeDiff_deterministic_idempotent (h : heap) (current previous : slice) :
  valid h current -> valid h previous -> separate current previous ->
  let run1 := ComputeDiffM h current previous in
  let run2 := ComputeDiffM run1.1 current previous in
  let run3 := ComputeDiffM run1.1 run1.2 previous in
  contents run1.1 run1.2
  = ComputeDiff (contents h current) (contents h previous)
  /\ contents run1.1 current
     = mark_new (key_set (contents h previous)) <$> contents h current
  /\ contents run2.1 run2.2 = contents run1.1 run1.2
  /\ contents run3.1 run3.2 = contents run1.1 run1.2.
Proof.
  try clear sort_Slice_perm.
  clear parseIPv6 sort_Slice ResolveHostname LookupVendor.
  intros Hvc Hvp Hsep run1 run2 run3.
  destruct (ComputeDiffM_spec h current previous Hvc Hvp Hsep)
    as (S1 & S2 & S3 & S4 & S5 & S6 & S7 & S8).
  fold run1 in S1, S2, S3, S4, S5, S6, S7, S8.
  split; [exact S5 |]. split; [exact S6 |]. split.
  - destruct (ComputeDiffM_spec run1.1 current previous S2 S3 Hsep)
      as (_ & _ & _ & _ & T5 & _).
    fold run2 in T5. rewrite T5, S5, S6, S7. apply ComputeDiff_marked.
  - destruct (ComputeDiffM_spec run1.1 run1.2 previous S1 S3 S4)
      as (_ & _ & _ & _ & T5 & _).
    fold run3 in T5. rewrite T5, S5, S7. apply ComputeDiff_idempotent.
Qed.

(** ** [incIP] on any address *)

Lemma incIP_rev_length (l : list Z) : length (incIP_rev l) = length l.
Proof.
  induction l as [| b l IH]; [reflexivity |].
  cbn [incIP_rev]. cbv zeta. destruct (0 <? _); cbn [length]; congruence.
Qed.

Lemma incIP_rev_bytes (l : list Z) : bytes l -> bytes (incIP_rev l).
Proof.
  induction 1 as [| b l Hb Hl IH]; [constructor |].
  assert (is_byte ((b + 1) mod 256))
    by (unfold is_byte; apply Z.mod_pos_bound; lia).
  cbn [incIP_rev]. cbv zeta. destruct (0 <? _); constructor; assumption.
Qed.

(** X1.  [incIP] keeps the length of the address it is given (the nil
    address stays nil) and its bytes stay bytes; on a 4-byte address it
    adds one to the numeric value, 255.255.255.255 wrapping to 0.0.0.0. *)
Theorem incIP_successor (ip : netIP) :
  length (incIP ip) = length ip
  /\ (bytes ip -> bytes (incIP ip))
  /\ (bytes ip -> length ip = 4%nat ->
      ipToUint32 (incIP ip) = (ipToUint32 ip + 1) mod 2 ^ 32).
Proof.
  split; [| split].
  - unfold incIP. rewrite length_rev, incIP_rev_length, length_rev. reflexivity.
  - intros Hb. unfold incIP, bytes. apply Forall_rev.
    apply incIP_rev_bytes. apply Forall_rev. exact Hb.
  - intros Hb Hlen.
    destruct ip as [| a [| b [| c [| d [| ? ?]]]]]; try discriminate.
    rewrite (incIP_quad _ _ _ _ Hb).
    apply ipToUint32_ipv4. apply Z.mod_pos_bound. lia.
Qed.

(** ** The sort key of [main] *)

Lemma To4_length (ip : netIP) : IP_To4 ip <> [] -> length (IP_To4 ip) = 4%nat.
Proof.
  unfold IP_To4.
  destruct (length ip =? IPv4len)%nat eqn:H4.
  - intros _. apply Nat.eqb_eq in H4. exact H4.
  - destruct ((length ip =? IPv6len)%nat && isZeros (take 10 ip)
              && (nth 10 ip 0 =? 255) && (nth 11 ip 0 =? 255)) eqn:H16;
      [| congruence].
    intros _. rewrite !andb_true_iff in H16. destruct H16 as [[[H16 _] _] _].
    apply Nat.eqb_eq in H16. rewrite length_drop, H16. reflexivity.
Qed.

Lemma To4_idempotent (ip : netIP) : IP_To4 (IP_To4 ip) = IP_To4 ip.
Proof.
  destruct (decide (IP_To4 ip = [])) as [E | E]; [rewrite E; reflexivity |].
  pose proof (To4_length ip E) as Hlen.
  unfold IP_To4 at 1. rewrite Hlen. reflexivity.
Qed.

(** X2.  The key [main] sorts by is 0 for an address that has no 4-byte
    form, lies in [0, 2^32) otherwise, and is the same for the 4-byte and
    the 16-byte form of an address; two IPv4 entries that the comparison
    puts in neither order have the same address, so the order of the
    sorted set is fixed by the addresses alone. *)
Theorem ipToUint32_sort_key (x y : ScanResult) :
  (IP_To4 (IP x) = [] -> ipToUint32 (IP x) = 0)
  /\ (bytes (IP x) -> 0 <= ipToUint32 (IP x) < 2 ^ 32)
  /\ ipToUint32 (IP_To4 (IP x)) = ipToUint32 (IP x)
  /\ (bytes (IP x) -> bytes (IP y) ->
      IP_To4 (IP x) <> [] -> IP_To4 (IP y) <> [] ->
      by_address x y = false -> by_address y x = false ->
      IP_To4 (IP x) = IP_To4 (IP y) /\ address x = address y).
Proof.
  split; [| split; [| split]].
  - intros H. unfold ipToUint32. rewrite H. reflexivity.
  - intros Hb. destruct (decide (IP_To4 (IP x) = [])) as [E | E].
    + unfold ipToUint32. rewrite E. lia.
    + destruct (To4_quad _ Hb E) as (a & b & c & d & E4 & Hq).
      pose proof (ipToUint32_range a b c d Hq) as Hr.
      unfold ipToUint32 in Hr |- *. rewrite E4. exact Hr.
  - unfold ipToUint32. rewrite To4_idempotent. reflexivity.
  - intros Hbx Hby Hx Hy Hxy Hyx. unfold by_address in Hxy, Hyx.
    apply Z.ltb_ge in Hxy, Hyx.
    destruct (To4_quad _ Hbx Hx) as (a & b & c & d & Ex & Hqx).
    destruct (To4_quad _ Hby Hy) as (a' & b' & c' & d' & Ey & Hqy).
    assert (Hkx : ipToUint32 (IP x) = ipToUint32 [a; b; c; d])
      by (unfold ipToUint32; rewrite Ex; reflexivity).
    assert (Hky : ipToUint32 (IP y) = ipToUint32 [a'; b'; c'; d'])
      by (unfold ipToUint32; rewrite Ey; reflexivity).
    assert (Heq : [a; b; c; d] = [a'; b'; c'; d']).
    { rewrite <- (ipv4_ipToUint32 a b c d Hqx).
      rewrite <- (ipv4_ipToUint32 a' b' c' d' Hqy). f_equal. lia. }
    split; [rewrite Ex, Ey; exact Heq |].
    unfold address. rewrite (IP_String_v4 _ _ _ _ _ Ex).
    rewrite (IP_String_v4 _ _ _ _ _ Ey). congruence.
Qed.

(** ** Interface detection *)

Lemma first_IPv4_found (name : string) (addrs : list Addr) (info : InterfaceInfo) :
  first_IPv4 name addrs = Some info ->
  exists pre ipNet post,
    addrs = pre ++ AddrIPNet ipNet :: post
    /\ Forall (fun a => ~ IPv4_addr a) pre
    /\ IP_To4 (IPNet_IP ipNet) <> []
    /\ info = mkInterfaceInfo name (IP_To4 (IPNet_IP ipNet)) ipNet.
Proof.
  induction addrs as [| a addrs IH]; cbn [first_IPv4]; [discriminate |].
  destruct a as [ipNet |].
  - cbv zeta. destruct (decide (IP_To4 (IPNet_IP ipNet) = [])) as [E | E].
    + rewrite bool_decide_eq_true_2 by exact E. intros H.
      destruct (IH H) as (pre & n & post & -> & Hpre & Hn & Hi).
      exists (AddrIPNet ipNet :: pre), n, post.
      split; [reflexivity |]. split; [| split; assumption].
      constructor; [| exact Hpre]. cbn. tauto.
    + rewrite bool_decide_eq_false_2 by exact E. intros [= <-].
      exists [], ipNet, addrs. repeat split; [constructor | exact E].
  - intros H. destruct (IH H) as (pre & n & post & -> & Hpre & Hn & Hi).
    exists (AddrOther :: pre), n, post.
    split; [reflexivity |]. split; [| split; assumption].
    constructor; [| exact Hpre]. cbn. tauto.
Qed.

Lemma first_IPv4_none (name : string) (addrs : list Addr) :
  first_IPv4 name addrs = None -> ~ Exists IPv4_addr addrs.
Proof.
  induction addrs as [| a addrs IH]; cbn [first_IPv4]; intros H Hex.
  - inversion Hex.
  - destruct a as [ipNet |].
    + cbv zeta in H. destruct (decide (IP_To4 (IPNet_IP ipNet) = [])) as [E | E].
      * rewrite bool_decide_eq_true_2 in H by exact E.
        apply Exists_cons in Hex as [Hex | Hex]; [cbn in Hex; tauto |].
        exact (IH H Hex).
      * rewrite bool_decide_eq_false_2 in H by exact E. discriminate.
    + apply Exists_cons in Hex as [Hex | Hex]; [exact Hex |].
      exact (IH H Hex).
Qed.

Lemma eligible_dec (ifaceName : string) (iface : Interface) :
  (negb (Z.land (if_Flags iface) FlagLoopback =? 0)
   || (Z.land (if_Flags iface) FlagUp =? 0)
   || negb (String.eqb ifaceName "")
      && negb (String.eqb (if_Name iface) ifaceName)) = false
  <-> eligible ifaceName iface.
Proof.
  unfold eligible.
  destruct (Z.eqb_spec (Z.land (if_Flags iface) FlagLoopback) 0);
    destruct (Z.eqb_spec (Z.land (if_Flags iface) FlagUp) 0);
    destruct (String.eqb_spec ifaceName "");
    destruct (String.eqb_spec (if_Name iface) ifaceName);
    cbn; intuition congruence.
Qed.

Lemma DetectInterface_loop_step (ifaceName : string) (iface : Interface)
    (rest : list Interface) :
  DetectInterface_loop ifaceName (iface :: rest)
  = if negb (Z.land (if_Flags iface) FlagLoopback =? 0)
       || (Z.land (if_Flags iface) FlagUp =? 0)
       || negb (String.eqb ifaceName "")
          && negb (String.eqb (if_Name iface) ifaceName)
    then DetectInterface_loop ifaceName rest
    else match if_Addrs iface ≫= first_IPv4 (if_Name iface) with
         | Some info => Some info
         | None => DetectInterface_loop ifaceName rest
         end.
Proof.
  cbn [DetectInterface_loop].
  destruct (negb (Z.land (if_Flags iface) FlagLoopback =? 0)); [reflexivity |].
  destruct (Z.land (if_Flags iface) FlagUp =? 0); [reflexivity |].
  destruct (negb (String.eqb ifaceName "")
            && negb (String.eqb (if_Name iface) ifaceName)); [reflexivity |].
  destruct (if_Addrs iface); reflexivity.
Qed.

Lemma DetectInterface_loop_found (ifaceName : string) (ifaces : list Interface)
    (info : InterfaceInfo) :
  DetectInterface_loop ifaceName ifaces = Some info ->
  exists pre iface post apre ipNet apost,
    ifaces = pre ++ iface :: post
    /\ Forall (fun i => ~ usable ifaceName i) pre
    /\ eligible ifaceName iface
    /\ if_Addrs iface = Some (apre ++ AddrIPNet ipNet :: apost)
    /\ Forall (fun a => ~ IPv4_addr a) apre
    /\ IP_To4 (IPNet_IP ipNet) <> []
    /\ info = mkInterfaceInfo (if_Name iface) (IP_To4 (IPNet_IP ipNet)) ipNet.
Proof.
  induction ifaces as [| iface rest IH]; [discriminate |].
  rewrite DetectInterface_loop_step.
  assert (Hskip : ~ usable ifaceName iface ->
            DetectInterface_loop ifaceName rest = Some info ->
            exists pre iface0 post apre ipNet apost,
              iface :: rest = pre ++ iface0 :: post
              /\ Forall (fun i => ~ usable ifaceName i) pre
              /\ eligible ifaceName iface0
              /\ if_Addrs iface0 = Some (apre ++ AddrIPNet ipNet :: apost)
              /\ Forall (fun a => ~ IPv4_addr a) apre
              /\ IP_To4 (IPNet_IP ipNet) <> []
              /\ info = mkInterfaceInfo (if_Name iface0)
                          (IP_To4 (IPNet_IP ipNet)) ipNet).
  { intros Hn H.
    destruct (IH H) as (pre & i0 & post & apre & n & apost & -> & Hpre & Hrest).
    exists (iface :: pre), i0, post, apre, n, apost.
    split; [reflexivity |]. split; [| exact Hrest].
    constructor; assumption. }
  destruct (_ || _ || _) eqn:Hel.
  - apply Hskip. intros [He _]. apply eligible_dec in He. congruence.
  - apply eligible_dec in Hel.
    destruct (if_Addrs iface) as [addrs |] eqn:Ha; cbn [mbind option_bind].
    2:{ apply Hskip. intros [_ (a & Ha' & _)]. congruence. }
    destruct (first_IPv4 (if_Name iface) addrs) as [info0 |] eqn:Hf.
    2:{ apply Hskip. intros [_ (a & Ha' & Hex)].
        apply (first_IPv4_none _ _ Hf). congruence. }
    intros [= ->].
    destruct (first_IPv4_found _ _ _ Hf) as (apre & n & apost & -> & Hp & Hn & Hi).
    exists [], iface, rest, apre, n, apost.
    split; [reflexivity |]. split; [constructor |].
    split; [exact Hel |]. split; [exact Ha |].
    split; [exact Hp |]. split; [exact Hn | exact Hi].
Qed.

Lemma DetectInterface_loop_none (ifaceName : string) (ifaces : list Interface) :
  DetectInterface_loop ifaceName ifaces = None ->
  Forall (fun i => ~ usable ifaceName i) ifaces.
Proof.
  induction ifaces as [| iface rest IH]; [constructor |].
  rewrite DetectInterface_loop_step.
  destruct (_ || _ || _) eqn:Hel.
  - intros H. constructor; [| exact (IH H)].
    intros [He _]. apply eligible_dec in He. congruence.
  - destruct (if_Addrs iface) as [addrs |] eqn:Ha; cbn [mbind option_bind].
    2:{ intros H. constructor; [| exact (IH H)].
        intros [_ (a & Ha' & _)]. congruence. }
    destruct (first_IPv4 (if_Name iface) addrs) as [info0 |] eqn:Hf;
      [discriminate |].
    intros H. constructor; [| exact (IH H)].
    intros [_ (a & Ha' & Hex)]. apply (first_IPv4_none _ _ Hf). congruence.
Qed.

(** X3.  [DetectInterface] answers the first interface, in the order of
    the system's list, that is not a loopback, is up, has the name asked
    for (when one is asked for) and has an address with a 4-byte form;
    the address it reports is the 4-byte form of the first such address,
    with the network that address came with.  It fails exactly when the
    system lists no such interface, with the message that names the
    interface when one was asked for. *)
Theorem DetectInterface_first_usable (ifaceName : string) (ifaces : list Interface) :
  (forall info, DetectInterface ifaceName (Some ifaces) = inl info ->
     exists pre iface post apre ipNet apost,
       ifaces = pre ++ iface :: post
       /\ Forall (fun i => ~ usable ifaceName i) pre
       /\ eligible ifaceName iface
       /\ if_Addrs iface = Some (apre ++ AddrIPNet ipNet :: apost)
       /\ Forall (fun a => ~ IPv4_addr a) apre
       /\ info = mkInterfaceInfo (if_Name iface) (IP_To4 (IPNet_IP ipNet)) ipNet
       /\ length (info_IP info) = 4%nat
       /\ IP_To4 (IPNet_IP (info_Network info)) = info_IP info)
  /\ (forall e, DetectInterface ifaceName (Some ifaces) = inr e ->
        Forall (fun i => ~ usable ifaceName i) ifaces
        /\ e = if decide (ifaceName = "") then ErrNoInterface
               else ErrNotFound ifaceName)
  /\ (Exists (usable ifaceName) ifaces ->
      exists info, DetectInterface ifaceName (Some ifaces) = inl info).
Proof.
  unfold DetectInterface.
  destruct (DetectInterface_loop ifaceName ifaces) as [info0 |] eqn:H.
  - split; [| split].
    + intros info [= <-].
      destruct (DetectInterface_loop_found _ _ _ H)
        as (pre & i0 & post & apre & n & apost & E & Hpre & Hel & Ha & Hap
            & Hn & Hi).
      exists pre, i0, post, apre, n, apost.
      repeat (split; [assumption |]). subst info0. cbn.
      split; [apply To4_length, Hn | reflexivity].
    + intros e. discriminate.
    + intros _. eexists. reflexivity.
  - pose proof (DetectInterface_loop_none _ _ H) as Hnone.
    split; [| split].
    + intros info. destruct (negb _); discriminate.
    + intros e He. split; [exact Hnone |].
      destruct (String.eqb_spec ifaceName "") as [-> | Hne]; cbn in He.
      * rewrite decide_True by reflexivity. congruence.
      * rewrite decide_False by exact Hne. congruence.
    + intros Hex. apply Exists_exists in Hex as (i & Hi & Hu).
      rewrite Forall_forall in Hnone. exfalso.
      exact (Hnone i Hi Hu).
Qed.

(** ** The ping command *)

(** X4.  Whatever the time-out, the wait given to the ping command is at
    least 1.  On Windows and macOS it is the time-out in milliseconds; on
    any other system it is the time-out in whole seconds, rounded down
    but never below one second, so that a time-out under two seconds
    (the default 500 ms among them) makes the ping wait one second. *)
Theorem ping_args_wait (goos ip : string) (timeout : Z) :
  exists count_flag wait_flag wait,
    ping_args goos ip timeout
    = [Lit count_flag; Lit "1"; Lit wait_flag; Int wait; Lit ip]
    /\ 1 <= wait
    /\ (goos = "windows" \/ goos = "darwin" ->
        wait = Z.max 1 (Milliseconds timeout))
    /\ (goos <> "windows" -> goos <> "darwin" ->
        wait = Z.max 1 (timeout ÷ 1000000000)
        /\ (timeout < 2000000000 -> wait = 1)).
Proof.
  unfold ping_args. cbv zeta.
  set (ms := Milliseconds timeout).
  assert (Hms : (if ms <? 1 then 1 else ms) = Z.max 1 ms)
    by (destruct (Z.ltb_spec ms 1); lia).
  rewrite Hms.
  destruct (String.eqb_spec goos "windows") as [-> | Hw].
  { do 3 eexists. split; [reflexivity |]. split; [lia |].
    split; [reflexivity | congruence]. }
  destruct (String.eqb_spec goos "darwin") as [-> | Hd].
  { do 3 eexists. split; [reflexivity |]. split; [lia |].
    split; [reflexivity | congruence]. }
  do 3 eexists. split; [reflexivity |].
  assert (Hq : ms ÷ 1000 = timeout ÷ 1000000000)
    by (unfold ms, Milliseconds; rewrite Z.quot_quot by lia; reflexivity).
  assert (Hmax : max 1 (Z.max 1 ms ÷ 1000) = Z.max 1 (timeout ÷ 1000000000)).
  { rewrite <- Hq. unfold max.
    destruct (Z.max_spec 1 ms) as [[Hlt ->] | [Hge ->]].
    - destruct (Z.gtb_spec 1 (ms ÷ 1000)); lia.
    - change (1 ÷ 1000) with 0. cbn.
      assert (ms ÷ 1000 <= 0); [| lia].
      destruct (Z.le_gt_cases 0 ms).
      + rewrite Z.quot_small by lia. lia.
      + apply Z.quot_le_upper_bound; lia. }
  rewrite Hmax. split; [lia |]. split; [intros [? | ?]; congruence |].
  intros _ _. split; [reflexivity |]. intros Hlt.
  assert (timeout ÷ 1000000000 <= 1); [| lia].
  destruct (Z.le_gt_cases 0 timeout).
  - apply Z.lt_succ_r. apply Z.quot_lt_upper_bound; lia.
  - assert (timeout ÷ 1000000000 <= 0); [| lia].
    apply Z.quot_le_upper_bound; lia.
Qed.

(** ** The TCP sweep and the UDP probes *)

Lemma tcp_alive_iff (net : Net) (ip : string) :
  tcp_alive net ip = true
  <-> exists port, port ∈ tcpPorts /\ dial_tcp net ip port <> DialFailed.
Proof.
  unfold tcp_alive. rewrite existsb_exists. split.
  - intros (port & Hin & H). exists port.
    split; [apply list_elem_of_In, Hin |].
    destruct (dial_tcp net ip port); congruence.
  - intros (port & Hin & H). exists port.
    split; [apply list_elem_of_In, Hin |].
    destruct (dial_tcp net ip port); congruence.
Qed.

Lemma open_ports_iff (net : Net) (ip : string) (port : Z) :
  port ∈ port_list (open_ports net ip)
  <-> port ∈ tcpPorts /\ dial_tcp net ip port = Connected.
Proof.
  unfold open_ports. rewrite port_list_ports_of.
  rewrite !list_elem_of_In, filter_In. unfold connected.
  destruct (dial_tcp net ip port); intuition congruence.
Qed.

Lemma open_ports_dead (net : Net) (ip : string) :
  tcp_alive net ip = false -> open_ports net ip = None.
Proof.
  intros Hdead. unfold open_ports.
  destruct (List.filter (connected net ip) tcpPorts) as [| port l] eqn:E;
    [reflexivity |].
  assert (Hin : In port (List.filter (connected net ip) tcpPorts))
    by (rewrite E; left; reflexivity).
  apply filter_In in Hin as [Hin Hc]. unfold connected in Hc.
  assert (tcp_alive net ip = true); [| congruence].
  apply tcp_alive_iff. exists port. split; [apply list_elem_of_In, Hin |].
  destruct (dial_tcp net ip port); congruence.
Qed.

(** X5.  The sweep dials every port of [tcpPorts] once, in the order of
    the list, whatever the earlier dials answered.  It reports the host
    alive exactly when some dial connected or was refused, and the open
    ports are exactly the ports that connected, in the order dialled; a
    host that only refuses is alive with no open port, and a host with an
    open port is always alive. *)
Theorem tcpProbe_sweep (ip : string) (net : Net) (tr : list Event) :
  let alive := (tcpProbe ip net tr).1.1 in
  let openPorts := (tcpProbe ip net tr).1.2 in
  (tcpProbe ip net tr).2 = tr ++ (EvDialTCP ip <$> tcpPorts)
  /\ (alive = true
      <-> exists port, port ∈ tcpPorts /\ dial_tcp net ip port <> DialFailed)
  /\ (forall port, port ∈ port_list openPorts
                   <-> port ∈ tcpPorts /\ dial_tcp net ip port = Connected)
  /\ port_list openPorts `sublist_of` tcpPorts
  /\ (openPorts = None
      <-> forall port, port ∈ tcpPorts -> dial_tcp net ip port <> Connected)
  /\ (openPorts <> None -> alive = true).
Proof.
  cbv zeta. rewrite tcpProbe_spec. cbn [fst snd].
  split; [reflexivity |]. split; [apply tcp_alive_iff |].
  split; [apply open_ports_iff |].
  split; [unfold open_ports; rewrite port_list_ports_of; apply filter_sublist |].
  split.
  - split.
    + intros Hnone port Hin Hc.
      assert (Hp : port ∈ port_list (open_ports net ip))
        by (apply open_ports_iff; split; assumption).
      rewrite Hnone in Hp. cbn in Hp. apply elem_of_nil in Hp. exact Hp.
    + intros Hall. destruct (open_ports net ip) as [l |] eqn:E; [| reflexivity].
      unfold open_ports, ports_of in E.
      destruct (List.filter (connected net ip) tcpPorts) as [| port l'] eqn:F;
        [discriminate |].
      assert (Hin : In port (List.filter (connected net ip) tcpPorts))
        by (rewrite F; left; reflexivity).
      apply filter_In in Hin as [Hin Hc]. unfold connected in Hc.
      exfalso. apply (Hall port); [apply list_elem_of_In, Hin |].
      destruct (dial_tcp net ip port); congruence.
  - intros Hne. destruct (tcp_alive net ip) eqn:E; [reflexivity |].
    exfalso. apply Hne, open_ports_dead, E.
Qed.

Lemma udpCheck_spec (ip : string) (port : Z) (net : Net) (tr : list Event) :
  udpCheck ip port net tr = (udp_replies net ip port, tr ++ udp_events net ip port).
Proof.
  unfold udpCheck, udp_replies, udp_events.
  rewrite probe_bind_unfold. cbn [perform fst snd].
  destruct (dial_udp net ip port); cbn [negb andb]; [| reflexivity].
  cbv zeta. rewrite probe_bind_unfold. cbn [perform fst snd].
  destruct (udp_write net ip port (udpPayload port)); cbn [negb andb].
  - rewrite probe_bind_unfold. cbn [perform fst snd].
    destruct (udp_read net ip port) as [n ok]. cbn [fst snd].
    rewrite <- !app_assoc. reflexivity.
  - rewrite <- !app_assoc. reflexivity.
Qed.

Lemma udpProbe_loop_spec (ip : string) (net : Net) (ports : list Z) :
  forall tr : list Event,
    udpProbe_loop ip ports net tr
    = (existsb (udp_replies net ip) ports,
       tr ++ concat (udp_events net ip <$> until_reply net ip ports)).
Proof.
  induction ports as [| port rest IH]; intros tr.
  - cbn. rewrite app_nil_r. reflexivity.
  - cbn [udpProbe_loop until_reply existsb].
    rewrite probe_bind_unfold, udpCheck_spec. cbn [fst snd].
    destruct (udp_replies net ip port); cbn [orb].
    + rewrite fmap_cons. cbn [concat fmap list_fmap]. rewrite app_nil_r.
      reflexivity.
    + rewrite IH, fmap_cons. cbn [concat]. rewrite <- app_assoc. reflexivity.
Qed.

Lemma until_reply_prefix (net : Net) (ip : string) (ports : list Z) :
  until_reply net ip ports `prefix_of` ports.
Proof.
  induction ports as [| port rest IH]; [reflexivity |].
  cbn [until_reply]. destruct (udp_replies net ip port).
  - exists rest. reflexivity.
  - apply prefix_cons, IH.
Qed.

Lemma until_reply_last (net : Net) (ip : string) (ports : list Z) :
  forall (i : nat) (port : Z),
    until_reply net ip ports !! i = Some port ->
    udp_replies net ip port = true ->
    S i = length (until_reply net ip ports).
Proof.
  induction ports as [| p rest IH]; intros i port Hi Hr; [discriminate |].
  cbn [until_reply] in *. destruct (udp_replies net ip p) eqn:E.
  - destruct i as [| i]; [reflexivity | discriminate].
  - destruct i as [| i].
    + injection Hi as ->. congruence.
    + cbn [length]. f_equal. apply (IH i port Hi Hr).
Qed.

Lemma until_reply_silent (net : Net) (ip : string) (ports : list Z) :
  existsb (udp_replies net ip) ports = false -> until_reply net ip ports = ports.
Proof.
  induction ports as [| p rest IH]; [reflexivity |].
  cbn [existsb until_reply]. intros H. apply orb_false_iff in H as [-> H].
  rewrite (IH H). reflexivity.
Qed.

(** X6.  The UDP probes go through [udpPorts] in order, one exchange per
    port (a dial, then the payload of that port, then one read), and stop
    at the first port that answers: no port listed after it is touched.
    The host counts as alive exactly when some port answers, that is when
    the dial and the write succeed and the read returns at least one byte
    without error; when none does, all six ports have been tried. *)
Theorem udpProbe_first_reply (ip : string) (net : Net) (tr : list Event) :
  let probed := until_reply net ip udpPorts in
  udpProbe ip net tr
  = (udp_alive net ip, tr ++ concat (udp_events net ip <$> probed))
  /\ probed `prefix_of` udpPorts
  /\ (forall (i : nat) (port : Z), probed !! i = Some port ->
        udp_replies net ip port = true -> S i = length probed)
  /\ (udp_alive net ip = true
      <-> exists port, port ∈ udpPorts /\ udp_replies net ip port = true)
  /\ (udp_alive net ip = false -> probed = udpPorts).
Proof.
  cbv zeta. split; [apply udpProbe_loop_spec |].
  split; [apply until_reply_prefix |].
  split; [apply until_reply_last |].
  split; [| apply until_reply_silent].
  unfold udp_alive. rewrite existsb_exists.
  split; intros (port & Hin & H); exists port;
    (split; [apply list_elem_of_In, Hin | exact H]).
Qed.

Lemma detectHost_outcome_unfold (ip : string) (net : Net) (tr : list Event) :
  (detectHost ip net tr).1
  = if ping net ip then ("ICMP", open_ports net ip)
    else if tcp_alive net ip then ("TCP", open_ports net ip)
    else if udp_alive net ip then ("UDP", None)
    else ("", None).
Proof.
  rewrite detectHost_unfold. cbv zeta.
  destruct (ping net ip); [reflexivity |].
  destruct (tcp_alive net ip) eqn:Ht; [reflexivity |].
  unfold udpProbe. rewrite udpProbe_loop_spec. cbn [fst snd].
  fold (udp_alive net ip). rewrite (open_ports_dead net ip Ht).
  destruct (udp_alive net ip); reflexivity.
Qed.

(** X7.  The cascade answers one of ICMP, TCP, UDP and the empty method:
    ICMP when the ping succeeds; TCP when it fails and some dial connects
    or is refused; UDP when both fail and some UDP port answers; the
    empty method exactly when nothing answers.  A host detected by UDP
    only, and a host not detected, never carry an open port: those are
    reported with the methods ICMP and TCP alone. *)
Theorem detectHost_outcome (ip : string) (net : Net) (tr : list Event) :
  let method := (detectHost ip net tr).1.1 in
  let openPorts := (detectHost ip net tr).1.2 in
  (method = "ICMP" \/ method = "TCP" \/ method = "UDP" \/ method = "")
  /\ (method = "ICMP" <-> ping net ip = true)
  /\ (method = "TCP" <-> ping net ip = false /\ tcp_alive net ip = true)
  /\ (method = "UDP" <-> ping net ip = false /\ tcp_alive net ip = false
                         /\ udp_alive net ip = true)
  /\ (method = "" <-> ping net ip = false /\ tcp_alive net ip = false
                      /\ udp_alive net ip = false)
  /\ (method = "UDP" \/ method = "" -> openPorts = None)
  /\ (openPorts <> None ->
      (method = "ICMP" \/ method = "TCP") /\ openPorts = open_ports net ip).
Proof.
  cbv zeta. rewrite detectHost_outcome_unfold.
  destruct (ping net ip), (tcp_alive net ip), (udp_alive net ip); cbn [fst snd];
    (repeat split; try tauto; try discriminate; try congruence; auto;
     try (intros [? | ?]; congruence);
     try (intros [? ?]; congruence);
     try (intros (? & ? & ?); congruence)).
Qed.

(** ** What the scan reports *)

Lemma detectHost_methods (ip : string) (net : Net) (tr : list Event) :
  let m := (detectHost ip net tr).1.1 in
  m = "ICMP" \/ m = "TCP" \/ m = "UDP" \/ m = "".
Proof.
  clear parseIPv6 growcap sort_Slice ResolveHostname LookupVendor sort_Slice_perm.
  cbv zeta. rewrite detectHost_outcome_unfold.
  destruct (ping net ip), (tcp_alive net ip), (udp_alive net ip); cbn; tauto.
Qed.

Lemma worker_job_unfold (hosts : list netIP) (net : nat -> Net) (st : ScanState)
    (idx : nat) :
  worker_job hosts net st idx
  = match job_outcome hosts net idx with
    | Some (ip, (m, p)) =>
        if negb (String.eqb m "") && negb (map_get (foundSet st) (IP_String ip))
        then mkScanState (<[IP_String ip := true]> (foundSet st))
               (results st ++ [mkScanResult ip "" "" "" m p ""])
        else st
    | None => st
    end.
Proof.
  unfold worker_job, job_outcome.
  destruct (hosts !! idx) as [ip |]; [| reflexivity]. cbn [mbind option_bind].
  destruct (detectHost (IP_String ip) (net idx) []).1 as [m p].
  reflexivity.
Qed.

(** The pool, job after job: an address is in [foundSet] exactly when it
    has an entry, it has one exactly when some job that probed it got an
    answer, and each entry is what such a job found. *)
Lemma Scan_probe_jobs (hosts : list netIP) (net : nat -> Net) (jobs : list nat) :
  let st := fold_left (worker_job hosts net) jobs (mkScanState ∅ []) in
  (forall k, map_get (foundSet st) k = true <-> k ∈ address <$> results st)
  /\ (forall k, k ∈ address <$> results st
                <-> exists idx, idx ∈ jobs /\ responds hosts net idx k)
  /\ (forall r, r ∈ results st ->
        exists idx, idx ∈ jobs
          /\ job_outcome hosts net idx = Some (IP r, (Method r, OpenPorts r))
          /\ Method r <> "" /\ Method r <> "ARP"
          /\ Hostname r = "" /\ MAC r = "" /\ Vendor r = "" /\ Status r = "").
Proof.
  clear. cbv zeta. induction jobs as [| idx jobs IH] using rev_ind.
  - cbn [fold_left foundSet results]. split; [| split].
    + intros k. rewrite map_get_empty, fmap_nil. split; [discriminate |].
      intros H. apply elem_of_nil in H. contradiction.
    + intros k. rewrite fmap_nil. split.
      * intros H. apply elem_of_nil in H. contradiction.
      * intros (idx & H & _). apply elem_of_nil in H. contradiction.
    + intros r H. apply elem_of_nil in H. contradiction.
  - rewrite fold_left_app. cbn [fold_left].
    set (st := fold_left (worker_job hosts net) jobs (mkScanState ∅ [])) in *.
    destruct IH as (Hfound & Haddr & Hent).
    assert (Hmono : forall k,
              (exists i, i ∈ jobs /\ responds hosts net i k)
              -> exists i, i ∈ jobs ++ [idx] /\ responds hosts net i k).
    { intros k (i & Hi & Hr). exists i. split; [| exact Hr].
      apply elem_of_app. left. exact Hi. }
    assert (Hsame : (forall k, responds hosts net idx k ->
                               k ∈ address <$> results st) ->
              (forall k, map_get (foundSet st) k = true
                         <-> k ∈ address <$> results st)
              /\ (forall k, k ∈ address <$> results st
                            <-> exists i, i ∈ jobs ++ [idx]
                                          /\ responds hosts net i k)
              /\ (forall r, r ∈ results st ->
                    exists i, i ∈ jobs ++ [idx]
                      /\ job_outcome hosts net i
                         = Some (IP r, (Method r, OpenPorts r))
                      /\ Method r <> "" /\ Method r <> "ARP"
                      /\ Hostname r = "" /\ MAC r = "" /\ Vendor r = ""
                      /\ Status r = "")).
    { intros Hidx. split; [exact Hfound |]. split.
      - intros k. split.
        + intros H. apply Hmono, Haddr, H.
        + intros (i & Hi & Hr). apply elem_of_app in Hi as [Hi | Hi].
          * apply Haddr. exists i. split; assumption.
          * apply list_elem_of_singleton in Hi. subst i. apply Hidx, Hr.
      - intros r Hr. destruct (Hent r Hr) as (i & Hi & Hrest).
        exists i. split; [apply elem_of_app; left; exact Hi | exact Hrest]. }
    rewrite worker_job_unfold.
    destruct (job_outcome hosts net idx) as [[ip [m p]] |] eqn:Hout.
    2:{ apply Hsame. intros k (ip & m & H & _). congruence. }
    destruct (String.eqb_spec m "") as [-> | Hm]; cbn [negb andb].
    { apply Hsame. intros k (ip' & m' & H & _ & Hne).
      rewrite Hout in H. injection H as <- <-. cbn in Hne. congruence. }
    destruct (map_get (foundSet st) (IP_String ip)) eqn:Hg; cbn [negb].
    { apply Hsame. intros k (ip' & m' & H & <- & _).
      rewrite Hout in H. injection H as <- <-. apply Hfound, Hg. }
    cbn [foundSet results]. rewrite fmap_app. cbn [fmap list_fmap].
    change (address (mkScanResult ip "" "" "" m p "")) with (IP_String ip).
    split; [| split].
    + intros k. rewrite map_get_insert, orb_true_iff, bool_decide_eq_true.
      rewrite elem_of_app, list_elem_of_singleton, Hfound.
      split; intros [H | H]; auto.
    + intros k. rewrite elem_of_app, list_elem_of_singleton. split.
      * intros [H | ->]; [apply Hmono, Haddr, H |].
        exists idx. split; [apply elem_of_app; right; apply list_elem_of_here |].
        exists ip, (m, p). split; [exact Hout |]. split; [reflexivity | exact Hm].
      * intros (i & Hi & Hr). apply elem_of_app in Hi as [Hi | Hi].
        -- left. apply Haddr. exists i. split; assumption.
        -- apply list_elem_of_singleton in Hi. subst i.
           destruct Hr as (ip' & m' & H & <- & _).
           rewrite Hout in H. injection H as <- <-. right. reflexivity.
    + intros r Hr. apply elem_of_app in Hr as [Hr | Hr].
      * destruct (Hent r Hr) as (i & Hi & Hrest).
        exists i. split; [apply elem_of_app; left; exact Hi | exact Hrest].
      * apply list_elem_of_singleton in Hr. subst r.
        exists idx. split; [apply elem_of_app; right; apply list_elem_of_here |].
        cbn [IP Method OpenPorts Hostname MAC Vendor Status].
        split; [exact Hout |]. split; [exact Hm |].
        split; [| repeat split].
        unfold job_outcome in Hout.
        destruct (hosts !! idx) as [ip0 |]; [| discriminate].
        cbn [mbind option_bind] in Hout. injection Hout as <- Hd.
        pose proof (detectHost_methods (IP_String ip0) (net idx) []) as Hmeth.
        cbv zeta in Hmeth. rewrite Hd in Hmeth. cbn in Hmeth.
        destruct Hmeth as [-> | [-> | [-> | ->]]]; discriminate.
Qed.

(** The ARP phase in closed form: one entry, in the order of [hosts],
    for each host that is not in [foundSet] and is in the ARP table. *)
Lemma Scan_arp_closed (found : gmap string bool) (arpTable : gmap string string)
    (hosts : list netIP) :
  forall acc : list ScanResult,
    fold_left (arp_step found arpTable) hosts acc
    = acc ++ (arp_entry <$> filter (fun ip => map_get found (IP_String ip) = false
                                              /\ in_arp arpTable (IP_String ip))
                                   hosts).
Proof.
  clear. induction hosts as [| ip hosts IH]; intros acc; cbn [fold_left].
  - rewrite filter_nil, fmap_nil, app_nil_r. reflexivity.
  - rewrite IH, filter_cons. unfold arp_step.
    destruct (map_get found (IP_String ip)) eqn:Hg.
    { rewrite decide_False by (intros [? _]; discriminate). reflexivity. }
    destruct (arpTable !! IP_String ip) as [mac |] eqn:Ha.
    2:{ rewrite decide_False; [reflexivity |].
        intros [_ (mac & H & _)]. congruence. }
    destruct (String.eqb_spec mac "") as [-> | Hm]; cbn [negb].
    { rewrite decide_False; [reflexivity |].
      intros [_ (mac & H & Hne)]. congruence. }
    rewrite decide_True.
    2:{ split; [reflexivity |]. exists mac. split; [exact Ha | exact Hm]. }
    rewrite fmap_cons, <- app_assoc. reflexivity.
Qed.

(** X8.  The scan loses no host and invents none.  An address is
    reported exactly when some job that probed it got an answer or when
    it is an address of the host list that the ARP table knows.  Every
    entry reported is for an address of the host list, with hostname,
    MAC, vendor and status unset, and is either what the cascade of one
    of the jobs answered (method ICMP, TCP or UDP, with the open ports
    that cascade found) or an ARP entry, without ports, for an address
    that the table knows and that no job detected. *)
Theorem Scan_reports_responders (hosts : list netIP) (workers : Z)
    (net : nat -> Net) (order : list nat) (arpTable : gmap string string) :
  let jobs := if workers <=? 0 then [] else order in
  let out := Scan hosts workers net order arpTable in
  (forall k, k ∈ address <$> out
             <-> (exists idx, idx ∈ jobs /\ responds hosts net idx k)
                 \/ (k ∈ IP_String <$> hosts /\ in_arp arpTable k))
  /\ (forall r, r ∈ out ->
        IP r ∈ hosts
        /\ Hostname r = "" /\ MAC r = "" /\ Vendor r = "" /\ Status r = ""
        /\ ((exists idx, idx ∈ jobs
               /\ job_outcome hosts net idx = Some (IP r, (Method r, OpenPorts r))
               /\ Method r <> "" /\ Method r <> "ARP")
            \/ (r = arp_entry (IP r) /\ in_arp arpTable (address r)
                /\ ~ exists idx, idx ∈ jobs /\ responds hosts net idx (address r)))).
Proof.
  clear. cbv zeta. unfold Scan, Scan_arp, Scan_probe.
  set (jobs := if workers <=? 0 then [] else order).
  destruct (Scan_probe_jobs hosts net jobs) as (Hfound & Haddr & Hent).
  cbv zeta in Hfound, Haddr, Hent.
  set (st := fold_left (worker_job hosts net) jobs (mkScanState ∅ [])) in *.
  rewrite Scan_arp_closed.
  set (P := fun ip => map_get (foundSet st) (IP_String ip) = false
                      /\ in_arp arpTable (IP_String ip)).
  assert (Hnf : forall k, map_get (foundSet st) k = false
                          <-> ~ exists idx, idx ∈ jobs /\ responds hosts net idx k).
  { intros k. rewrite <- Haddr, <- Hfound.
    destruct (map_get (foundSet st) k); split; congruence. }
  split.
  - intros k. rewrite fmap_app, elem_of_app, Haddr. split.
    + intros [H | H]; [left; exact H |]. right.
      apply list_elem_of_fmap in H as (r & -> & Hr).
      apply list_elem_of_fmap in Hr as (ip & -> & Hip).
      apply list_elem_of_filter in Hip as [[_ Harp] Hip].
      change (address (arp_entry ip)) with (IP_String ip).
      split; [apply list_elem_of_fmap_2, Hip | exact Harp].
    + intros [H | [Hk Harp]]; [left; exact H |].
      destruct (map_get (foundSet st) k) eqn:Hg.
      * left. apply Haddr, Hfound, Hg.
      * right. apply list_elem_of_fmap in Hk as (ip & -> & Hip).
        change (IP_String ip) with (address (arp_entry ip)).
        apply list_elem_of_fmap_2, list_elem_of_fmap_2.
        apply list_elem_of_filter. split; [split; assumption | exact Hip].
  - intros r Hr. apply elem_of_app in Hr as [Hr | Hr].
    + destruct (Hent r Hr) as (idx & Hi & Hout & Hm & Hna & Hh & Hmac & Hv & Hs).
      split.
      { unfold job_outcome in Hout.
        destruct (hosts !! idx) as [ip0 |] eqn:Hl; [| discriminate].
        cbn [mbind option_bind] in Hout. injection Hout as -> _.
        eapply list_elem_of_lookup_2, Hl. }
      repeat (split; [assumption |]).
      left. exists idx. repeat split; assumption.
    + apply list_elem_of_fmap in Hr as (ip & -> & Hip).
      apply list_elem_of_filter in Hip as [[Hg Harp] Hip].
      split; [exact Hip |]. repeat (split; [reflexivity |]).
      right. split; [reflexivity |]. split; [exact Harp |].
      apply Hnf, Hg.
Qed.

(** X9.  The scan returns the entries of the probe phase followed by
    those of the ARP phase.  The probe phase reports an address at most
    once whatever the order in which the workers finish, even for a host
    list that repeats an address, and never with the method ARP; the ARP
    phase goes through the host list in order and skips every address the
    probe phase reported.  For a host list without repetition the whole
    result has one entry per address.  Without workers nothing is probed
    and the result is the ARP entries alone. *)
Theorem Scan_probe_then_arp (hosts : list netIP) (workers : Z)
    (net : nat -> Net) (order : list nat) (arpTable : gmap string string) :
  exists probed : list ScanResult,
    Scan hosts workers net order arpTable
    = probed ++ (arp_entry <$> filter (fun ip => (IP_String ip ∉ address <$> probed)
                                                 /\ in_arp arpTable (IP_String ip))
                                      hosts)
    /\ NoDup (address <$> probed)
    /\ Forall (fun r => Method r <> "ARP") probed
    /\ (NoDup (IP_String <$> hosts) ->
        NoDup (address <$> Scan hosts workers net order arpTable))
    /\ (workers <= 0 -> probed = []).
Proof.
  clear. exists (results (Scan_probe hosts workers net order)).
  destruct (Scan_probe_invariant hosts workers net order) as [[Hnd _] _].
  split; [| split; [exact Hnd | split; [| split]]].
  - unfold Scan, Scan_arp. rewrite Scan_arp_closed. f_equal. f_equal.
    unfold Scan_probe.
    destruct (Scan_probe_jobs hosts net (if workers <=? 0 then [] else order))
      as (Hfound & _).
    cbv zeta in Hfound. apply list_filter_iff. intros ip.
    rewrite <- Hfound.
    destruct (map_get _ (IP_String ip)); split; intros [H1 H2]; split;
      congruence.
  - unfold Scan_probe.
    destruct (Scan_probe_jobs hosts net (if workers <=? 0 then [] else order))
      as (_ & _ & Hent).
    cbv zeta in Hent. apply Forall_forall. intros r Hr.
    destruct (Hent r Hr) as (_ & _ & _ & _ & Hna & _). exact Hna.
  - apply Scan_NoDup.
  - intros Hw. unfold Scan_probe.
    destruct (Z.leb_spec workers 0); [reflexivity | lia].
Qed.

End Localscan.

(** * Closed instances *)

Lemma sample_sort_perm less (l : list ScanResult) : sample_sort less l ≡ₚ l.
Proof. apply merge_sort_Permutation. Qed.



Lemma main_saves_only_live_entries_witness :
  (forall less l, sample_sort less l ≡ₚ l)
  /\ writable history_AB = true
  /\ last_json
       (main_tail sample_String6 sample_parseIPv6 sample_sort sample_names
          sample_names true [host_B; host_C] ∅ history_AB).2
     = Some (Doc (marshal_entries
         (toHistoryEntry sample_String6
            <$> filter not_gone
                  (main_tail sample_String6 sample_parseIPv6 sample_sort
                     sample_names sample_names true [host_B; host_C] ∅
                     history_AB).1))).
Proof.
  split; [exact sample_sort_perm |]. split; [reflexivity |].
  exact (proj1 (main_saves_only_live_entries sample_String6 sample_parseIPv6
                  sample_sort sample_names sample_names sample_sort_perm
                  [host_B; host_C] ∅ history_AB) eq_refl).
Defined.

Lemma rendered_ports_in_probe_order_witness :
  (forall less l, sample_sort less l ≡ₚ l)
  /\ Forall (fun r => not_gone r -> probe_order r)
       (main_tail sample_String6 sample_parseIPv6 sample_sort sample_names
          sample_names true
          (Scan sample_String6 [[10; 0; 0; 1]] 1 (fun _ => smb_host)
             [0%nat] ∅)
          ∅ history_AB).1.
Proof.
  split; [exact sample_sort_perm |].
  exact (rendered_ports_in_probe_order sample_String6 sample_parseIPv6
           sample_sort sample_names sample_names sample_sort_perm true
           [[10; 0; 0; 1]] 1 (fun _ => smb_host) [0%nat] ∅ ∅ history_AB).
Defined.

(** C7 as stated fails: a host on which 445 and 139 accept is handed to
    the renderers with its ports in dial order, 445 before 139. *)
Lemma rendered_ports_not_ascending :
  (main_tail sample_String6 sample_parseIPv6 sample_sort sample_names
     sample_names true
     (Scan sample_String6 [[10; 0; 0; 1]] 1 (fun _ => smb_host) [0%nat] ∅)
     ∅ fresh_fs).1
  = [mkScanResult [10; 0; 0; 1] "" "-" "-" "ICMP" (Some [445; 139]) "NEW"]
  /\ ~ StronglySorted Z.lt [445; 139].
Proof.
  split; [vm_compute; reflexivity |].
  intros H. apply StronglySorted_inv in H as [_ H].
  apply Forall_cons in H as [H _]. lia.
Qed.

Lemma two_arrays_valid :
  valid two_heap two_current /\ valid two_heap two_previous
  /\ separate two_current two_previous.
Proof.
  unfold valid, separate, array_of. cbn. repeat split; lia.
Qed.

Lemma ComputeDiff_deterministic_idempotent_witness :
  valid two_heap two_current /\ valid two_heap two_previous
  /\ separate two_current two_previous
  /\ (let run1 := ComputeDiffM sample_String6 sample_growcap two_heap
                     two_current two_previous in
      let run3 := ComputeDiffM sample_String6 sample_growcap run1.1 run1.2
                     two_previous in
      contents run3.1 run3.2 = contents run1.1 run1.2).
Proof.
  destruct two_arrays_valid as (Hc & Hp & Hs).
  split; [exact Hc |]. split; [exact Hp |]. split; [exact Hs |].
  exact (proj2 (proj2 (proj2
    (ComputeDiff_deterministic_idempotent sample_String6 sample_growcap
       two_heap two_current two_previous Hc Hp Hs)))).
Defined.

(** C9 as stated fails on "pure": the call writes the caller's array.
    After [ComputeDiff] on a [current] holding C alone and no previous
    scan, the caller's slice holds C with status NEW. *)
Lemma ComputeDiff_writes_current :
  valid lone_heap lone_current /\ valid lone_heap nil_slice
  /\ separate lone_current nil_slice
  /\ contents lone_heap lone_current = [host_C]
  /\ contents (ComputeDiffM sample_String6 sample_growcap lone_heap
                 lone_current nil_slice).1 lone_current
     = [set_Status host_C "NEW"]
  /\ contents (ComputeDiffM sample_String6 sample_growcap lone_heap
                 lone_current nil_slice).1 lone_current
     <> contents lone_heap lone_current.
Proof.
  unfold valid, separate, array_of. cbn [ptr off len cap lone_current nil_slice].
  repeat split; try (cbn; lia); try (right; left; reflexivity);
    try (vm_compute; reflexivity).
  vm_compute. discriminate.
Qed.


(** C10 as stated fails for slices of one array: with [current] the
    first element of the array of [previous] and room for one more,
    [append] writes the GONE copy of B over B itself. *)
Lemma ComputeDiff_overlap_writes_previous :
  valid shared_heap shared_current /\ valid shared_heap shared_previous
  /\ contents shared_heap shared_previous = [host_A; host_B]
  /\ contents (ComputeDiffM sample_String6 sample_growcap shared_heap
                 shared_current shared_previous).1 shared_previous
     = [host_A; set_Status host_B "GONE"]
  /\ contents (ComputeDiffM sample_String6 sample_growcap shared_heap
                 shared_current shared_previous).1 shared_previous
     <> contents shared_heap shared_previous.
Proof.
  unfold valid, array_of.
  cbn [ptr off len cap shared_current shared_previous].
  repeat split; try (cbn; lia); try (vm_compute; reflexivity).
  vm_compute. discriminate.
Qed.

Lemma detectHost_icmp_witness :
  ping smb_host "10.0.0.1" = true
  /\ (detectHost "10.0.0.1" smb_host []).1.1 = "ICMP".
Proof.
  split; [reflexivity |].
  exact (detectHost_icmp "10.0.0.1" smb_host [] eq_refl).
Defined.
